(** * A shallow embedding of the ECS runtime of goud_cade

    Sources: [packages/ecs/src/core/Entity.ts] (which holds both
    [createEntityManager] and [createWorld]), [packages/ecs/src/core/index.ts]
    (the fluent [query()] builder) and the [Component.ts] / [System.ts]
    modules reproduced in [README.md] ([createComponentStorage],
    [defineComponent], the [System] interface).

    Modelling choices.
    - An [Entity] is a [nat] (the code's [nextId++] on a JS number; ids are
      exact up to 2^53, the model does not bound them).
    - A system's [priority] is a [Z]; the code only compares priorities
      with [>], and the model does not cover [NaN] or fractional values.
    - Component data, resource values and event payloads are stored and
      passed around without being inspected; they are modelled by [Value].
    - A JS [Map] with string keys is an association list in insertion order
      ([smap_*]); a [Set<Entity>] is a duplicate-free list in insertion order.
    - The [Set<EventHandler>] objects of the event bus are heap objects: the
      unsubscribe closure captures the set itself, and [emit] iterates it
      live.  They live in a heap [handlerSets] and follow the ECMAScript
      [SetData] representation: deleting an element leaves an empty slot
      ([None]) and the iterator walks the list by index, so elements added
      during an iteration are visited by it.
    - The callbacks of the runtime (a system's [init], [update] and
      [cleanup], an event handler) are user code that receives the world.
      They are modelled by scripts of world operations ([Op]) looked up in
      an environment [Env] by object identity ([sys_id], handler id).  The
      runtime is an interpreter of [Op] with fuel ([exec]); running out of
      fuel ([None]) stands for a run that does not return.
    - Every callback invocation made by the runtime is recorded in a ghost
      [trace] that user code cannot touch. *)

From Stdlib Require Import List String ZArith Bool Lia Sorted Permutation.
Import ListNotations.

Definition Entity := nat.
Definition Value := nat.

(** ** Association lists: JS [Map] with string keys *)

Fixpoint smap_get {X} (k : string) (m : list (string * X)) : option X :=
  match m with
  | [] => None
  | (k', x) :: t => if String.eqb k k' then Some x else smap_get k t
  end.

Definition smap_has {X} (k : string) (m : list (string * X)) : bool :=
  match smap_get k m with Some _ => true | None => false end.

(** [Map.prototype.set]: an existing key keeps its position. *)
Fixpoint smap_set {X} (k : string) (x : X) (m : list (string * X)) : list (string * X) :=
  match m with
  | [] => [(k, x)]
  | (k', x') :: t => if String.eqb k k' then (k, x) :: t else (k', x') :: smap_set k x t
  end.

(** ** EntityManager ([createEntityManager]) *)

Record EntityManager := mkEntityManager { nextId : nat; entities : list Entity }.

(** [Set.prototype.add] on the alive set. *)
Definition eset_add (x : Entity) (l : list Entity) : list Entity :=
  if existsb (Nat.eqb x) l then l else l ++ [x].

Definition eset_delete (x : Entity) (l : list Entity) : list Entity :=
  filter (fun y => negb (Nat.eqb x y)) l.

Definition em_init : EntityManager := mkEntityManager 0 [].

(** [create()]: [const entity = nextId++; entities.add(entity); return entity]. *)
Definition em_create (m : EntityManager) : Entity * EntityManager :=
  (nextId m, mkEntityManager (S (nextId m)) (eset_add (nextId m) (entities m))).

Definition em_destroy (e : Entity) (m : EntityManager) : EntityManager :=
  mkEntityManager (nextId m) (eset_delete e (entities m)).

Definition em_exists (e : Entity) (m : EntityManager) : bool :=
  existsb (Nat.eqb e) (entities m).

Definition em_getAll (m : EntityManager) : list Entity := entities m.

Definition em_clear (m : EntityManager) : EntityManager := mkEntityManager 0 [].

Definition em_count (m : EntityManager) : nat := List.length (entities m).

(** ** Component types and storages ([Component.ts]) *)

Record ComponentType := defineComponent { ct_name : string; defaultValue : Value }.

(** [createComponentStorage]: a [Map<Entity, T>]. *)
Definition ComponentStorage := list (Entity * Value).

Fixpoint storage_get (e : Entity) (s : ComponentStorage) : option Value :=
  match s with
  | [] => None
  | (e', v) :: t => if Nat.eqb e e' then Some v else storage_get e t
  end.

Definition storage_has (e : Entity) (s : ComponentStorage) : bool :=
  match storage_get e s with Some _ => true | None => false end.

Fixpoint storage_set (e : Entity) (v : Value) (s : ComponentStorage) : ComponentStorage :=
  match s with
  | [] => [(e, v)]
  | (e', v') :: t => if Nat.eqb e e' then (e, v) :: t else (e', v') :: storage_set e v t
  end.

Definition storage_remove (e : Entity) (s : ComponentStorage) : ComponentStorage :=
  filter (fun p => negb (Nat.eqb e (fst p))) s.

Definition storage_entities (s : ComponentStorage) : list Entity := map fst s.

(** ** Systems ([System.ts]) *)

(** A system object.  [sys_id] is the object's identity, through which the
    environment gives its methods. *)
Record System := mkSystem { sys_name : string; priority : Z; sys_id : nat }.

(** ** World operations, callbacks and the trace *)

(** The world operations a callback can perform.  Pure reads
    ([hasComponent], [getSystem], [query], [getResource], [exists], ...)
    change nothing and are not listed; [getComponent] is, since it may
    create a storage.  [OpUnsubscribe a h] calls the closure returned by
    [on], which captured the handler set at address [a] and the handler
    [h]. *)
Inductive Op :=
| OpCreate
| OpDestroyEntity (e : Entity)
| OpClearEntities
| OpRegisterComponent (T : ComponentType)
| OpAddComponent (e : Entity) (T : ComponentType) (v : Value)
| OpGetComponent (e : Entity) (T : ComponentType)
| OpRemoveComponent (e : Entity) (T : ComponentType)
| OpRemoveAllComponents (e : Entity)
| OpAddSystem (s : System)
| OpRemoveSystem (name : string)
| OpUpdate (deltaTime : Z)
| OpDestroyWorld
| OpEmit (event : string) (data : option Value)
| OpOn (event : string) (handler : nat)
| OpUnsubscribe (set : nat) (handler : nat)
| OpSetResource (name : string) (v : Value).

(** The user code behind each callback: [init]/[cleanup] are optional. *)
Record Env := mkEnv {
  env_init : nat -> option (list Op);
  env_update : nat -> Z -> list Op;
  env_cleanup : nat -> option (list Op);
  env_handler : nat -> option Value -> list Op }.

(** Events of the ghost trace. *)
Inductive Ev :=
| EvWarn (e : Entity)                   (* console.warn in addComponent *)
| EvInit (s : System)
| EvUpdate (s : System) (deltaTime : Z)
| EvCleanup (s : System)
| EvHandler (handler : nat) (data : option Value)
| EvWorldDestroyed.                     (* world.destroy() finished *)

(** ** The world state ([createWorld]) *)

Record World := mkWorld {
  em : EntityManager;
  componentStorages : list (string * ComponentStorage);
  registeredComponents : list ComponentType;
  systems : list System;
  eventHandlers : list (string * nat);        (* event name -> its Set object *)
  handlerSets : list (list (option nat));     (* heap of Set<EventHandler> objects *)
  resources : list (string * Value);
  trace : list Ev }.

Definition init_world : World := mkWorld em_init [] [] [] [] [] [] [].

Definition set_em (m : EntityManager) (w : World) : World :=
  mkWorld m (componentStorages w) (registeredComponents w) (systems w)
    (eventHandlers w) (handlerSets w) (resources w) (trace w).
Definition set_storages (cs : list (string * ComponentStorage)) (w : World) : World :=
  mkWorld (em w) cs (registeredComponents w) (systems w)
    (eventHandlers w) (handlerSets w) (resources w) (trace w).
Definition set_systems (l : list System) (w : World) : World :=
  mkWorld (em w) (componentStorages w) (registeredComponents w) l
    (eventHandlers w) (handlerSets w) (resources w) (trace w).
Definition set_handlerSets (h : list (list (option nat))) (w : World) : World :=
  mkWorld (em w) (componentStorages w) (registeredComponents w) (systems w)
    (eventHandlers w) h (resources w) (trace w).
Definition set_resources (r : list (string * Value)) (w : World) : World :=
  mkWorld (em w) (componentStorages w) (registeredComponents w) (systems w)
    (eventHandlers w) (handlerSets w) r (trace w).

(** Record an event in the ghost trace. *)
Definition log (ev : Ev) (w : World) : World :=
  mkWorld (em w) (componentStorages w) (registeredComponents w) (systems w)
    (eventHandlers w) (handlerSets w) (resources w) (trace w ++ [ev]).

(** *** Components *)

(** [getStorage]: look the storage up, creating and recording it if absent. *)
Definition getStorage (w : World) (T : ComponentType) : ComponentStorage * World :=
  match smap_get (ct_name T) (componentStorages w) with
  | Some s => (s, w)
  | None =>
      ([], mkWorld (em w) (smap_set (ct_name T) [] (componentStorages w))
             (registeredComponents w ++ [T]) (systems w)
             (eventHandlers w) (handlerSets w) (resources w) (trace w))
  end.

Definition registerComponent (w : World) (T : ComponentType) : World :=
  if smap_has (ct_name T) (componentStorages w) then w
  else mkWorld (em w) (smap_set (ct_name T) [] (componentStorages w))
         (registeredComponents w ++ [T]) (systems w)
         (eventHandlers w) (handlerSets w) (resources w) (trace w).

(** [addComponent]: a dead entity only produces a warning. *)
Definition addComponent (w : World) (e : Entity) (T : ComponentType) (v : Value) : World :=
  if negb (em_exists e (em w)) then log (EvWarn e) w
  else let (s, w1) := getStorage w T in
       set_storages (smap_set (ct_name T) (storage_set e v s) (componentStorages w1)) w1.

Definition getComponent (w : World) (e : Entity) (T : ComponentType) : option Value * World :=
  let (s, w1) := getStorage w T in (storage_get e s, w1).

Definition hasComponent (w : World) (e : Entity) (T : ComponentType) : bool :=
  match smap_get (ct_name T) (componentStorages w) with
  | Some s => storage_has e s
  | None => false
  end.

Definition removeComponent (w : World) (e : Entity) (T : ComponentType) : World :=
  match smap_get (ct_name T) (componentStorages w) with
  | Some s => set_storages (smap_set (ct_name T) (storage_remove e s) (componentStorages w)) w
  | None => w
  end.

Definition removeAllComponents (w : World) (e : Entity) : World :=
  set_storages (map (fun p => (fst p, storage_remove e (snd p))) (componentStorages w)) w.

(** The stored record of [e] in [T]'s storage, read without side effect. *)
Definition component_of (w : World) (e : Entity) (T : ComponentType) : option Value :=
  match smap_get (ct_name T) (componentStorages w) with
  | Some s => storage_get e s
  | None => None
  end.

Definition has_storage (w : World) (T : ComponentType) : bool :=
  smap_has (ct_name T) (componentStorages w).

(** *** Systems *)

(** [Array.prototype.findIndex]. *)
Fixpoint find_index {A} (p : A -> bool) (l : list A) : option nat :=
  match l with
  | [] => None
  | x :: t => if p x then Some 0 else option_map S (find_index p t)
  end.

(** [splice(i, 1)]: no effect when [i] is out of range. *)
Definition splice_out {A} (i : nat) (l : list A) : list A := firstn i l ++ skipn (S i) l.

(** The insertion step of [addSystem]: before the first system of strictly
    greater priority, at the end if there is none. *)
Definition insert_system (s : System) (l : list System) : list System :=
  match find_index (fun x => Z.ltb (priority s) (priority x)) l with
  | None => l ++ [s]
  | Some i => firstn i l ++ s :: skipn i l
  end.

Definition name_is (n : string) (s : System) : bool := String.eqb (sys_name s) n.

Definition getSystem (w : World) (n : string) : option System :=
  find (name_is n) (systems w).

(** *** Queries *)

Definition query (w : World) (components : list ComponentType) : list Entity :=
  match components with
  | [] => em_getAll (em w)
  | first :: _ =>
      match smap_get (ct_name first) (componentStorages w) with
      | None => []
      | Some firstStorage =>
          filter (fun e => forallb (fun c =>
                    match smap_get (ct_name c) (componentStorages w) with
                    | Some s => storage_has e s
                    | None => false
                    end) components)
                 (storage_entities firstStorage)
      end
  end.

(** The fluent builder of [index.ts]. *)
Record QueryBuilder := mkQueryBuilder {
  withComponents : list ComponentType; withoutComponents : list ComponentType }.

Definition query_builder : QueryBuilder := mkQueryBuilder [] [].

Definition qb_with (cs : list ComponentType) (q : QueryBuilder) : QueryBuilder :=
  mkQueryBuilder (withComponents q ++ cs) (withoutComponents q).

Definition qb_without (cs : list ComponentType) (q : QueryBuilder) : QueryBuilder :=
  mkQueryBuilder (withComponents q) (withoutComponents q ++ cs).

Definition execute (q : QueryBuilder) (w : World) : list Entity :=
  filter (fun e =>
            if negb (forallb (fun c => hasComponent w e c) (withComponents q)) then false
            else forallb (fun c => negb (hasComponent w e c)) (withoutComponents q))
         (em_getAll (em w)).

(** *** Events *)

(** Replace the element at index [i] by [f] of it; no effect out of range. *)
Fixpoint update_nth {A} (i : nat) (f : A -> A) (l : list A) : list A :=
  match l, i with
  | [], _ => []
  | x :: t, O => f x :: t
  | x :: t, S j => x :: update_nth j f t
  end.

Definition opt_nat_eqb (a b : option nat) : bool :=
  match a, b with
  | Some x, Some y => Nat.eqb x y
  | None, None => true
  | _, _ => false
  end.

(** [Set.prototype.add] and [delete] on the [SetData] of a handler set. *)
Definition hset_add (h : nat) (d : list (option nat)) : list (option nat) :=
  if existsb (opt_nat_eqb (Some h)) d then d else d ++ [Some h].

Definition hset_delete (h : nat) (d : list (option nat)) : list (option nat) :=
  map (fun x => if opt_nat_eqb (Some h) x then None else x) d.

(** [on]: returns the world and the unsubscribe closure (set address,
    handler). *)
Definition on (w : World) (event : string) (h : nat) : World * (nat * nat) :=
  match smap_get event (eventHandlers w) with
  | Some a => (set_handlerSets (update_nth a (hset_add h) (handlerSets w)) w, (a, h))
  | None =>
      let a := List.length (handlerSets w) in
      (mkWorld (em w) (componentStorages w) (registeredComponents w) (systems w)
         (smap_set event a (eventHandlers w)) (handlerSets w ++ [hset_add h []])
         (resources w) (trace w), (a, h))
  end.

Definition unsubscribe (w : World) (a h : nat) : World :=
  set_handlerSets (update_nth a (hset_delete h) (handlerSets w)) w.

(** *** Resources *)

Definition setResource (w : World) (k : string) (v : Value) : World :=
  set_resources (smap_set k v (resources w)) w.

Definition getResource (w : World) (k : string) : option Value := smap_get k (resources w).

(** The clearing part of [destroy()], after the systems' cleanups:
    the system list, the storages, the entities, the event map and the
    resources are emptied.  [registeredComponents] and the handler set
    objects themselves are left as they are. *)
Definition reset_world (w : World) : World :=
  mkWorld (em_clear (em w)) [] (registeredComponents w) [] [] (handlerSets w) []
    (trace w ++ [EvWorldDestroyed]).

(** ** The runtime: an interpreter of world operations *)

Notation "'let?' x ':=' m 'in' k" :=
  (match m with Some x => k | None => None end)
  (at level 200, x name, m at level 100, k at level 200).

Section Runtime.
Variable env : Env.

(** [exec fuel o w] runs the operation [o]; [run] runs a callback's script;
    [update_loop], [cleanup_loop] and [emit_loop] are the [for ... of]
    loops of [update], [destroy] and [emit], which read the live array or
    set at each step.  Each level of the interpreter consumes fuel. *)
Fixpoint exec (fuel : nat) (o : Op) (w : World) {struct fuel} : option World :=
  match fuel with
  | O => None
  | S f =>
    match o with
    | OpCreate => Some (set_em (snd (em_create (em w))) w)
    | OpDestroyEntity e => Some (set_em (em_destroy e (em w)) w)
    | OpClearEntities => Some (set_em (em_clear (em w)) w)
    | OpRegisterComponent T => Some (registerComponent w T)
    | OpAddComponent e T v => Some (addComponent w e T v)
    | OpGetComponent e T => Some (snd (getComponent w e T))
    | OpRemoveComponent e T => Some (removeComponent w e T)
    | OpRemoveAllComponents e => Some (removeAllComponents w e)
    | OpAddSystem s =>
        (* remove an existing system with the same name: cleanup, then
           splice at the index found before the cleanup ran *)
        let? w1 :=
          match find_index (name_is (sys_name s)) (systems w) with
          | Some i =>
              match nth_error (systems w) i with
              | Some existing =>
                  let? w' := call_cleanup f existing w in
                  Some (set_systems (splice_out i (systems w')) w')
              | None => Some w
              end
          | None => Some w
          end in
        (* insert in priority order, then initialize *)
        let w2 := set_systems (insert_system s (systems w1)) w1 in
        match env_init env (sys_id s) with
        | Some body => run f body (log (EvInit s) w2)
        | None => Some w2
        end
    | OpRemoveSystem n =>
        match find_index (name_is n) (systems w) with
        | Some i =>
            match nth_error (systems w) i with
            | Some sys =>
                let? w' := call_cleanup f sys w in
                Some (set_systems (splice_out i (systems w')) w')
            | None => Some w
            end
        | None => Some w
        end
    | OpUpdate dt => update_loop f dt 0 w
    | OpDestroyWorld =>
        let? w1 := cleanup_loop f 0 w in Some (reset_world w1)
    | OpEmit ev d =>
        match smap_get ev (eventHandlers w) with
        | Some a => emit_loop f a d 0 w
        | None => Some w
        end
    | OpOn ev h => Some (fst (on w ev h))
    | OpUnsubscribe a h => Some (unsubscribe w a h)
    | OpSetResource k v => Some (setResource w k v)
    end
  end

with run (fuel : nat) (ops : list Op) (w : World) {struct fuel} : option World :=
  match fuel with
  | O => None
  | S f =>
    match ops with
    | [] => Some w
    | o :: t => let? w1 := exec f o w in run f t w1
    end
  end

(** [system.cleanup?.(world)] *)
with call_cleanup (fuel : nat) (s : System) (w : World) {struct fuel} : option World :=
  match fuel with
  | O => None
  | S f =>
    match env_cleanup env (sys_id s) with
    | Some body => run f body (log (EvCleanup s) w)
    | None => Some w
    end
  end

(** [for (const system of systems) system.update(world, deltaTime)] *)
with update_loop (fuel : nat) (dt : Z) (i : nat) (w : World) {struct fuel} : option World :=
  match fuel with
  | O => None
  | S f =>
    match nth_error (systems w) i with
    | None => Some w
    | Some s =>
        let? w1 := run f (env_update env (sys_id s) dt) (log (EvUpdate s dt) w) in
        update_loop f dt (S i) w1
    end
  end

(** [for (const system of systems) system.cleanup?.(world)] *)
with cleanup_loop (fuel : nat) (i : nat) (w : World) {struct fuel} : option World :=
  match fuel with
  | O => None
  | S f =>
    match nth_error (systems w) i with
    | None => Some w
    | Some s =>
        let? w1 := call_cleanup f s w in
        cleanup_loop f (S i) w1
    end
  end

(** [for (const handler of handlers) handler(data)] over the set at [a] *)
with emit_loop (fuel : nat) (a : nat) (d : option Value) (i : nat) (w : World)
  {struct fuel} : option World :=
  match fuel with
  | O => None
  | S f =>
    match nth_error (handlerSets w) a with
    | None => Some w
    | Some data =>
        match nth_error data i with
        | None => Some w
        | Some None => emit_loop f a d (S i) w
        | Some (Some h) =>
            let? w1 := run f (env_handler env h d) (log (EvHandler h d) w) in
            emit_loop f a d (S i) w1
        end
    end
  end.

End Runtime.

(** The events recorded between two states of a run. *)
Definition new_events (w w' : World) : list Ev := skipn (List.length (trace w)) (trace w').

(** The systems whose [update] ran, in order. *)
Definition updates_of (l : list Ev) : list System :=
  flat_map (fun ev => match ev with EvUpdate s _ => [s] | _ => [] end) l.

(** The payloads handler [h] was invoked with, in order. *)
Definition handler_calls (h : nat) (l : list Ev) : list (option Value) :=
  flat_map (fun ev => match ev with
                      | EvHandler h' d => if Nat.eqb h h' then [d] else []
                      | _ => [] end) l.

Definition System_eq_dec (x y : System) : {x = y} + {x <> y}.
Proof. decide equality; [apply Nat.eq_dec | apply Z.eq_dec | apply string_dec]. Defined.

(** The number of times [s]'s cleanup ran. *)
Definition count_cleanups (s : System) (l : list Ev) : nat :=
  List.length (filter (fun ev => match ev with
                                 | EvCleanup s' => if System_eq_dec s s' then true else false
                                 | _ => false end) l).

(** A sequence of top-level operations from a fresh world. *)
Definition reachable (env : Env) (w : World) : Prop :=
  exists fuel ops, run env fuel ops init_world = Some w.

(** ** Sequences of entity-manager calls *)

Inductive EmOp := EmCreate | EmDestroy (e : Entity).

(** Runs the calls, collecting the ids returned by [create()]. *)
Fixpoint em_run (ops : list EmOp) (m : EntityManager) : list Entity * EntityManager :=
  match ops with
  | [] => ([], m)
  | EmCreate :: t =>
      let (e, m1) := em_create m in
      let (ids, m2) := em_run t m1 in (e :: ids, m2)
  | EmDestroy e :: t => em_run t (em_destroy e m)
  end.

Definition ncreates (ops : list EmOp) : nat :=
  List.length (filter (fun o => match o with EmCreate => true | _ => false end) ops).

(** ** Callbacks that leave parts of the runtime alone *)

(** No change of the system list and no nested frame. *)
Definition sys_quiet (o : Op) : bool :=
  match o with
  | OpAddSystem _ | OpRemoveSystem _ | OpUpdate _ | OpDestroyWorld => false
  | _ => true
  end.

(** No change of any handler set and no nested emission. *)
Definition ev_quiet (o : Op) : bool :=
  match o with
  | OpOn _ _ | OpUnsubscribe _ _ | OpEmit _ _ => false
  | _ => true
  end.

(** Every callback of [env] only performs operations satisfying [q]. *)
Definition env_quiet (q : Op -> bool) (env : Env) : Prop :=
  (forall sid body, env_init env sid = Some body -> forallb q body = true) /\
  (forall sid dt, forallb q (env_update env sid dt) = true) /\
  (forall sid body, env_cleanup env sid = Some body -> forallb q body = true) /\
  (forall h d, forallb q (env_handler env h d) = true).

(** An operation that runs no callback and changes no handler set. *)
Definition handler_op (o : Op) : bool := ev_quiet o && sys_quiet o.

(** No callback that can run during an emission changes a handler set or
    emits: either no callback at all subscribes, unsubscribes or emits, or
    the handlers only perform operations that run no callback (then the
    system callbacks may do anything). *)
Definition emission_quiet (env : Env) : Prop :=
  env_quiet ev_quiet env \/ (forall h d, forallb handler_op (env_handler env h d) = true).

(** The environment where no callback does anything. *)
Definition env_idle : Env := mkEnv (fun _ => None) (fun _ _ => []) (fun _ => None) (fun _ _ => []).

(** Of a sequence of added systems, the last one added under each name,
    in the order they were added. *)
Fixpoint latest_by_name (adds : list System) : list System :=
  match adds with
  | [] => []
  | s :: t =>
      if existsb (name_is (sys_name s)) t then latest_by_name t
      else s :: latest_by_name t
  end.

(** Well-formedness of the event bus: every event maps to an allocated
    handler set, and no handler occurs twice in a set. *)
Definition somes (d : list (option nat)) : list nat :=
  flat_map (fun x => match x with Some h => [h] | None => [] end) d.

Definition wf_events (w : World) : Prop :=
  (forall ev a, smap_get ev (eventHandlers w) = Some a -> a < List.length (handlerSets w)) /\
  Forall (fun d => NoDup (somes d)) (handlerSets w).

(** ** Derived observations *)

(** The handlers registered for [ev], in the iteration order of its set. *)
Definition handlers_of (w : World) (ev : string) : list nat :=
  match smap_get ev (eventHandlers w) with
  | Some a => match nth_error (handlerSets w) a with Some d => somes d | None => [] end
  | None => []
  end.

(** The handler invocations recorded in a piece of trace, in order. *)
Definition handler_log (l : list Ev) : list (nat * option Value) :=
  flat_map (fun ev => match ev with EvHandler h d => [(h, d)] | _ => [] end) l.

(** The entity manager's invariant: the alive set has no duplicates and
    every alive id is below the counter. *)
Definition em_wf (m : EntityManager) : Prop :=
  NoDup (entities m) /\ forall x, In x (entities m) -> x < nextId m.

(** Every storage is a map: no entity occurs twice in it. *)
Definition storages_wf (w : World) : Prop :=
  forall k s, smap_get k (componentStorages w) = Some s -> NoDup (storage_entities s).

(** Distinct events have distinct handler sets. *)
Definition events_inj (w : World) : Prop :=
  forall ev1 ev2 a, smap_get ev1 (eventHandlers w) = Some a ->
                    smap_get ev2 (eventHandlers w) = Some a -> ev1 = ev2.

(** ** Systems: priorities and example systems *)

Definition prio_le (a b : System) : Prop := (priority a <= priority b)%Z.

Definition prio_is (p : Z) (s : System) : bool := Z.eqb (priority s) p.

(** The operation is not [addSystem(old)]. *)
Definition adds_not (old : System) (o : Op) : bool :=
  match o with
  | OpAddSystem s => if System_eq_dec s old then false else true
  | _ => true
  end.

Definition systemA : System := mkSystem "a" 200 1.
Definition systemB : System := mkSystem "b" 100 2.
Definition systemC : System := mkSystem "c" 10 3.
Definition systemD : System := mkSystem "d" 20 4.

(** [systemB]'s update adds [systemC] and [systemD], of lower priorities. *)
Definition env_adding_update : Env :=
  mkEnv (fun _ => None)
    (fun sid _ => match sid with 2 => [OpAddSystem systemC; OpAddSystem systemD] | _ => [] end)
    (fun _ => None) (fun _ _ => []).

Definition systemX : System := mkSystem "x" 0 5.
Definition oldN : System := mkSystem "n" 100 6.
Definition newN : System := mkSystem "n" 100 7.

(** [oldN]'s cleanup removes the system named ["x"]. *)
Definition env_removing_cleanup : Env :=
  mkEnv (fun _ => None) (fun _ _ => [])
    (fun sid => match sid with 6 => Some [OpRemoveSystem "x"] | _ => None end)
    (fun _ _ => []).

(** Every system has a cleanup, which does nothing. *)
Definition env_empty_cleanups : Env :=
  mkEnv (fun _ => None) (fun _ _ => []) (fun _ => Some []) (fun _ _ => []).

(** ** Example environments with re-entrant callbacks *)

(** Handler 1 subscribes handler 2 to ["e"]; handler 2 unsubscribes
    handler 1 from the set it was registered in (address 0) and subscribes
    it again. *)
Definition env_resubscribe : Env :=
  mkEnv (fun _ => None) (fun _ _ => []) (fun _ => None)
    (fun h _ => match h with
                | 1 => [OpOn "e" 2]
                | 2 => [OpUnsubscribe 0 1; OpOn "e" 1]
                | _ => []
                end).

(** As in the games: every system's [init] subscribes handler 5 to
    ["restart"] and its update emits ["tick"]; the handlers set a
    resource. *)
Definition env_game : Env :=
  mkEnv (fun _ => Some [OpOn "restart" 5]) (fun _ _ => [OpEmit "tick" None])
    (fun _ => None) (fun _ _ => [OpSetResource "score" 0]).

(** The world after [addSystem(systemA)] under [env_game]. *)
Definition game_world : World :=
  match run env_game 10 [OpAddSystem systemA] init_world with
  | Some w => w
  | None => init_world
  end.

(** * Proofs *)

(** ** Maps and storages *)

Lemma smap_get_set_eq {X} (k : string) (x : X) m : smap_get k (smap_set k x m) = Some x.
Proof.
  induction m as [|[k' x'] t IH]; simpl; [now rewrite String.eqb_refl|].
  destruct (String.eqb k k') eqn:E; simpl; [now rewrite String.eqb_refl | now rewrite E].
Qed.

Lemma smap_get_set_neq {X} (k k' : string) (x : X) m :
  k' <> k -> smap_get k' (smap_set k x m) = smap_get k' m.
Proof.
  intros Hne. induction m as [|[k0 x0] t IH]; simpl.
  - destruct (String.eqb_spec k' k); congruence.
  - destruct (String.eqb_spec k k0) as [->|Hk]; simpl.
    + destruct (String.eqb_spec k' k0); congruence.
    + now rewrite IH.
Qed.

Lemma smap_has_set {X} (k k' : string) (x : X) m :
  smap_has k' m = true -> smap_has k' (smap_set k x m) = true.
Proof.
  unfold smap_has. destruct (string_dec k' k) as [->|Hne].
  - now rewrite smap_get_set_eq.
  - now rewrite smap_get_set_neq.
Qed.

Lemma storage_get_set_eq e v s : storage_get e (storage_set e v s) = Some v.
Proof.
  induction s as [|[e' v'] t IH]; simpl; [now rewrite Nat.eqb_refl|].
  destruct (Nat.eqb e e') eqn:E; simpl; [now rewrite Nat.eqb_refl | now rewrite E].
Qed.

Lemma storage_get_set_neq e e' v s : e' <> e -> storage_get e' (storage_set e v s) = storage_get e' s.
Proof.
  intros Hne. induction s as [|[e0 v0] t IH]; simpl.
  - destruct (Nat.eqb_spec e' e); congruence.
  - destruct (Nat.eqb_spec e e0) as [->|He]; simpl.
    + destruct (Nat.eqb_spec e' e0); congruence.
    + now rewrite IH.
Qed.

Lemma storage_get_remove e s : storage_get e (storage_remove e s) = None.
Proof.
  induction s as [|[e' v'] t IH]; simpl; [reflexivity|].
  destruct (Nat.eqb_spec e e') as [->|Hne]; simpl; [exact IH|].
  destruct (Nat.eqb_spec e e'); [contradiction | exact IH].
Qed.

Lemma storage_has_in e s : storage_has e s = true -> In e (storage_entities s).
Proof.
  unfold storage_has. induction s as [|[e' v'] t IH]; simpl; [discriminate|].
  destruct (Nat.eqb_spec e e') as [->|_]; auto.
Qed.

(** ** Queries *)

Lemma In_execute_with w cs x :
  In x (execute (qb_with cs query_builder) w) <->
  In x (em_getAll (em w)) /\ forallb (fun c => hasComponent w x c) cs = true.
Proof.
  unfold execute, qb_with; simpl. rewrite filter_In.
  destruct (forallb (fun c => hasComponent w x c) cs); simpl; intuition discriminate.
Qed.

Lemma In_query w cs x :
  cs <> [] ->
  (In x (query w cs) <-> forallb (fun c => hasComponent w x c) cs = true).
Proof.
  intros Hne. destruct cs as [|c cs']; [contradiction|].
  unfold query. unfold hasComponent at 1.
  destruct (smap_get (ct_name c) (componentStorages w)) as [s|] eqn:E.
  - rewrite filter_In. split; [intros [_ H]; exact H|].
    intros H. split; [|exact H].
    simpl in H. rewrite E in H. apply andb_true_iff in H as [H _].
    now apply storage_has_in.
  - simpl. split; [contradiction|]. rewrite E. discriminate.
Qed.

(** ** Entity manager *)

Lemma em_run_ids ops m : fst (em_run ops m) = seq (nextId m) (ncreates ops).
Proof.
  revert m. induction ops as [|o t IH]; intros m; [reflexivity|].
  destruct o as [|e]; simpl.
  - destruct (em_run t _) as [ids m2] eqn:E. simpl.
    specialize (IH (mkEntityManager (S (nextId m)) (eset_add (nextId m) (entities m)))).
    rewrite E in IH. simpl in IH. now rewrite IH.
  - unfold ncreates in *. simpl. now rewrite IH.
Qed.

Lemma em_exists_destroy e m : em_exists e (em_destroy e m) = false.
Proof.
  unfold em_exists, em_destroy, eset_delete; simpl.
  induction (entities m) as [|x t IH]; simpl; [reflexivity|].
  destruct (Nat.eqb_spec e x) as [->|Hne]; simpl; [exact IH|].
  destruct (Nat.eqb_spec e x); [contradiction | exact IH].
Qed.

Lemma smap_get_map {X Y} (g : X -> Y) k (m : list (string * X)) :
  smap_get k (map (fun p => (fst p, g (snd p))) m) = option_map g (smap_get k m).
Proof.
  induction m as [|[k' x] t IH]; simpl; [reflexivity|].
  destruct (String.eqb k k'); [reflexivity | exact IH].
Qed.

Lemma getComponent_storage w e T :
  fst (getComponent w e T) = component_of w e T.
Proof.
  unfold getComponent, getStorage, component_of.
  destruct (smap_get (ct_name T) (componentStorages w)); reflexivity.
Qed.

Ltac exec_step H :=
  match type of H with
  | exec _ ?f _ _ = Some _ => destruct f; simpl in H; [discriminate|]
  end.

(** ** C1 *)

(** C1 (corrected).  For a non-empty list of component types, the fluent
    query [query().with(T1..Tn).execute(world)] returns exactly the alive
    entities among those of the direct query [world.query(T1..Tn)]: an
    entity is in the first iff it is in the second and alive.  The two
    coincide whenever no destroyed id still holds component data. *)
Theorem fluent_query_is_alive_part_of_query :
  forall w cs x, cs <> [] ->
  (In x (execute (qb_with cs query_builder) w) <->
   In x (query w cs) /\ In x (em_getAll (em w))).
Proof.
  intros w cs x Hne. rewrite In_execute_with, (In_query w cs x Hne). tauto.
Qed.

Lemma fluent_query_is_alive_part_of_query_witness :
  [defineComponent "Position" 0] <> [] /\
  (In 0 (execute (qb_with [defineComponent "Position" 0] query_builder) init_world) <->
   In 0 (query init_world [defineComponent "Position" 0]) /\ In 0 (em_getAll (em init_world))).
Proof.
  split; [discriminate|].
  apply (fluent_query_is_alive_part_of_query init_world [defineComponent "Position" 0] 0).
  discriminate.
Defined.

(** C1 counterexample: create entity 0, give it a [Position], destroy it.
    [world.query(Position)] still returns [[0]] from the storage, the fluent
    query over the alive entities returns [[]]. *)
Lemma fluent_query_differs_from_query :
  exists w,
    run env_idle 5 [OpCreate; OpAddComponent 0 (defineComponent "Position" 0) 5;
                    OpDestroyEntity 0] init_world = Some w /\
    query w [defineComponent "Position" 0] = [0] /\
    execute (qb_with [defineComponent "Position" 0] query_builder) w = [].
Proof. eexists. split; [vm_compute; reflexivity | split; vm_compute; reflexivity]. Qed.

(** ** C5 *)

(** C5.  [addComponent(e, T, data)] on an entity that is not alive changes
    nothing but records a warning; on an alive entity it makes [T]'s
    storage exist, replaces the record of [e] in it by [data], and leaves
    every other record and every other part of the world unchanged. *)
Theorem addComponent_spec :
  forall env f w e T v w',
  exec env f (OpAddComponent e T v) w = Some w' ->
  (em_exists e (em w) = false -> w' = log (EvWarn e) w) /\
  (em_exists e (em w) = true ->
     has_storage w' T = true /\ component_of w' e T = Some v /\
     (forall e' T', ct_name T' <> ct_name T \/ e' <> e ->
                    component_of w' e' T' = component_of w e' T') /\
     em w' = em w /\ systems w' = systems w /\ eventHandlers w' = eventHandlers w /\
     handlerSets w' = handlerSets w /\ resources w' = resources w /\ trace w' = trace w).
Proof.
  intros env f w e T v w' H. exec_step H. injection H as <-.
  unfold addComponent. split; intros Hal; rewrite Hal; [reflexivity|]. simpl.
  unfold getStorage, has_storage, component_of, smap_has.
  destruct (smap_get (ct_name T) (componentStorages w)) as [s|] eqn:E; simpl.
  - rewrite smap_get_set_eq, storage_get_set_eq.
    split; [reflexivity|]. split; [reflexivity|]. split; [|repeat split; reflexivity].
    intros e' T' Hd. destruct (string_dec (ct_name T') (ct_name T)) as [Hn|Hn].
    + rewrite Hn, smap_get_set_eq, E. destruct Hd as [Hd|Hd]; [contradiction|].
      now rewrite storage_get_set_neq.
    + now rewrite !smap_get_set_neq by exact Hn.
  - rewrite smap_get_set_eq. simpl. rewrite Nat.eqb_refl.
    split; [reflexivity|]. split; [reflexivity|]. split; [|repeat split; reflexivity].
    intros e' T' Hd. destruct (string_dec (ct_name T') (ct_name T)) as [Hn|Hn].
    + rewrite Hn, smap_get_set_eq, E. destruct Hd as [Hd|Hd]; [contradiction|].
      simpl. destruct (Nat.eqb_spec e' e); [contradiction | reflexivity].
    + now rewrite !smap_get_set_neq by exact Hn.
Qed.

Lemma addComponent_spec_witness :
  exec env_idle 1 (OpAddComponent 0 (defineComponent "Position" 0) 5)
    (set_em (snd (em_create em_init)) init_world)
  = Some (addComponent (set_em (snd (em_create em_init)) init_world) 0
            (defineComponent "Position" 0) 5) /\
  component_of (addComponent (set_em (snd (em_create em_init)) init_world) 0
                  (defineComponent "Position" 0) 5) 0 (defineComponent "Position" 0) = Some 5.
Proof.
  split; [reflexivity|].
  apply (proj2 (addComponent_spec env_idle 1 (set_em (snd (em_create em_init)) init_world)
                  0 (defineComponent "Position" 0) 5 _ eq_refl)).
  reflexivity.
Defined.

(** ** C6 *)

(** C6.  Along any sequence of [create()] and [destroy(e)] calls without
    [clear()], the ids returned by [create()] are [nextId, nextId+1, ...]
    (so [0, 1, 2, ...] on a fresh or cleared manager): unique, increasing
    by one, never returned twice; [clear()] resets the counter to 0. *)
Theorem create_ids_sequential :
  forall ops m,
  fst (em_run ops m) = seq (nextId m) (ncreates ops) /\
  fst (em_run ops em_init) = seq 0 (ncreates ops) /\
  fst (em_run ops (em_clear m)) = seq 0 (ncreates ops) /\
  NoDup (fst (em_run ops m)) /\
  fst (em_create (em_clear m)) = 0.
Proof.
  intros ops m. rewrite !em_run_ids. repeat split; try reflexivity. apply seq_NoDup.
Qed.

(** ** C7 *)

Lemma component_of_removeAll w e T : component_of (removeAllComponents w e) e T = None.
Proof.
  unfold component_of, removeAllComponents; simpl.
  rewrite (smap_get_map (storage_remove e)).
  destruct (smap_get (ct_name T) (componentStorages w)); simpl;
    [apply storage_get_remove | reflexivity].
Qed.

(** C7.  [entities.destroy(e)] makes [exists(e)] false and leaves every
    component storage as it was, so [getComponent(e, T)] still returns the
    old record; if [removeAllComponents(e)] ran first, it returns absent. *)
Theorem destroy_entity_keeps_components :
  forall env f w e T v w',
  em_exists e (em w) = true ->
  component_of w e T = Some v ->
  exec env f (OpDestroyEntity e) w = Some w' ->
  em_exists e (em w') = false /\
  componentStorages w' = componentStorages w /\
  fst (getComponent w' e T) = Some v /\
  (forall f1 f2 w1 w2,
     exec env f1 (OpRemoveAllComponents e) w = Some w1 ->
     exec env f2 (OpDestroyEntity e) w1 = Some w2 ->
     em_exists e (em w2) = false /\ fst (getComponent w2 e T) = None).
Proof.
  intros env f w e T v w' _ Hv H. exec_step H. injection H as <-.
  split; [apply em_exists_destroy|]. split; [reflexivity|].
  split; [rewrite getComponent_storage; exact Hv|].
  intros f1 f2 w1 w2 H1 H2. exec_step H1. injection H1 as <-.
  exec_step H2. injection H2 as <-.
  split; [apply em_exists_destroy|]. rewrite getComponent_storage.
  apply component_of_removeAll.
Qed.

Lemma destroy_entity_keeps_components_witness :
  let w := addComponent (set_em (snd (em_create em_init)) init_world) 0
             (defineComponent "Position" 0) 5 in
  em_exists 0 (em w) = true /\
  component_of w 0 (defineComponent "Position" 0) = Some 5 /\
  exec env_idle 1 (OpDestroyEntity 0) w = Some (set_em (em_destroy 0 (em w)) w) /\
  fst (getComponent (set_em (em_destroy 0 (em w)) w) 0 (defineComponent "Position" 0)) = Some 5.
Proof.
  intros w. split; [reflexivity|]. split; [reflexivity|]. split; [reflexivity|].
  apply (destroy_entity_keeps_components env_idle 1 w 0 (defineComponent "Position" 0) 5);
    reflexivity.
Defined.

(** ** The trace only grows *)

Definition extends (w w' : World) : Prop := exists l, trace w' = trace w ++ l.

Lemma extends_refl w : extends w w.
Proof. exists []. now rewrite app_nil_r. Qed.

Lemma extends_same w w' : trace w' = trace w -> extends w w'.
Proof. intros H. exists []. now rewrite H, app_nil_r. Qed.

Lemma extends_trans w1 w2 w3 : extends w1 w2 -> extends w2 w3 -> extends w1 w3.
Proof. intros [l1 H1] [l2 H2]. exists (l1 ++ l2). now rewrite H2, H1, app_assoc. Qed.

Lemma extends_log ev w : extends w (log ev w).
Proof. now exists [ev]. Qed.

Lemma extends_reset w : extends w (reset_world w).
Proof. now exists [EvWorldDestroyed]. Qed.


(** Split a successful run of a [match] into its cases. *)
Ltac inv_some H :=
  repeat match type of H with
  | (match ?x with _ => _ end) = Some _ => destruct x eqn:?
  | Some _ = Some _ => injection H as H
  | None = Some _ => discriminate H
  end.

Ltac split_runs :=
  repeat match goal with
  | H : (match ?x with _ => _ end) = Some _ |- _ => destruct x eqn:?
  | H : Some _ = Some _ |- _ => injection H as H; subst
  | H : None = Some _ |- _ => discriminate H
  end.

Definition all_ops (env : Env) (fuel : nat) (P : World -> World -> Prop) : Prop :=
  (forall o w w', exec env fuel o w = Some w' -> P w w') /\
  (forall ops w w', run env fuel ops w = Some w' -> P w w') /\
  (forall s w w', call_cleanup env fuel s w = Some w' -> P w w') /\
  (forall dt i w w', update_loop env fuel dt i w = Some w' -> P w w') /\
  (forall i w w', cleanup_loop env fuel i w = Some w' -> P w w') /\
  (forall a d i w w', emit_loop env fuel a d i w = Some w' -> P w w').

Lemma extends_addComponent w e T v : extends w (addComponent w e T v).
Proof.
  unfold addComponent, getStorage.
  destruct (negb _); [apply extends_log|].
  destruct (smap_get _ _); apply extends_same; reflexivity.
Qed.

Lemma extends_getComponent w e T : extends w (snd (getComponent w e T)).
Proof. unfold getComponent, getStorage. destruct (smap_get _ _); apply extends_same; reflexivity. Qed.

Lemma extends_registerComponent w T : extends w (registerComponent w T).
Proof. unfold registerComponent. destruct (smap_has _ _); apply extends_same; reflexivity. Qed.

Lemma extends_removeComponent w e T : extends w (removeComponent w e T).
Proof. unfold removeComponent. destruct (smap_get _ _); apply extends_same; reflexivity. Qed.

Lemma extends_on w ev h : extends w (fst (on w ev h)).
Proof. unfold on. destruct (smap_get _ _); apply extends_same; reflexivity. Qed.


(** *** Relations preserved by every operation *)

Section Preserved.
Variable R : World -> World -> Prop.
Hypothesis R_refl : forall w, R w w.
Hypothesis R_trans : forall w1 w2 w3, R w1 w2 -> R w2 w3 -> R w1 w3.
Hypothesis R_set_em : forall m w, R w (set_em m w).
Hypothesis R_systems : forall l w, R w (set_systems l w).
Hypothesis R_log : forall ev w, R w (log ev w).
Hypothesis R_reset : forall w, R w (reset_world w).
Hypothesis R_register : forall w T, R w (registerComponent w T).
Hypothesis R_add : forall w e T v, R w (addComponent w e T v).
Hypothesis R_get : forall w e T, R w (snd (getComponent w e T)).
Hypothesis R_remove : forall w e T, R w (removeComponent w e T).
Hypothesis R_removeAll : forall w e, R w (removeAllComponents w e).
Hypothesis R_on : forall w ev h, R w (fst (on w ev h)).
Hypothesis R_unsub : forall w a h, R w (unsubscribe w a h).
Hypothesis R_setResource : forall w k v, R w (setResource w k v).

Ltac reach :=
  first
  [ apply R_refl
  | assumption
  | apply R_set_em | apply R_register | apply R_add | apply R_get | apply R_remove
  | apply R_removeAll | apply R_on | apply R_unsub | apply R_setResource
  | match goal with
    | |- R ?a (set_systems _ ?m) => apply (R_trans a m); [reach | apply R_systems]
    | |- R ?a (log _ ?m) => apply (R_trans a m); [reach | apply R_log]
    | |- R ?a (reset_world ?m) => apply (R_trans a m); [reach | apply R_reset]
    | H : R ?m ?b |- R ?a ?b => apply (R_trans a m b); [reach | exact H]
    end ].

Lemma preserved_by_all_ops env fuel : all_ops env fuel R.
Proof.
  induction fuel as [|f IH]; [repeat split; intros; discriminate|].
  destruct IH as (IHe & IHr & IHc & IHu & IHl & IHm).
  repeat split;
    [intros o w w' H; destruct o; simpl in H
    |intros ops w w' H; destruct ops; simpl in H
    |intros s w w' H; simpl in H
    |intros dt i w w' H; simpl in H
    |intros i w w' H; simpl in H
    |intros a d i w w' H; simpl in H];
    split_runs;
    repeat match goal with
    | H : exec env f _ _ = Some _ |- _ => apply IHe in H
    | H : run env f _ _ = Some _ |- _ => apply IHr in H
    | H : call_cleanup env f _ _ = Some _ |- _ => apply IHc in H
    | H : update_loop env f _ _ _ = Some _ |- _ => apply IHu in H
    | H : cleanup_loop env f _ _ = Some _ |- _ => apply IHl in H
    | H : emit_loop env f _ _ _ _ = Some _ |- _ => apply IHm in H
    end;
    reach.
Qed.

End Preserved.

Lemma extends_set_em m w : extends w (set_em m w).
Proof. now apply extends_same. Qed.
Lemma extends_systems l w : extends w (set_systems l w).
Proof. now apply extends_same. Qed.
Lemma extends_unsub w a h : extends w (unsubscribe w a h).
Proof. now apply extends_same. Qed.
Lemma extends_setResource w k v : extends w (setResource w k v).
Proof. now apply extends_same. Qed.
Lemma extends_removeAll w e : extends w (removeAllComponents w e).
Proof. now apply extends_same. Qed.

Lemma trace_extends env fuel : all_ops env fuel extends.
Proof.
  exact (preserved_by_all_ops extends extends_refl extends_trans extends_set_em
    extends_systems extends_log extends_reset extends_registerComponent
    extends_addComponent extends_getComponent extends_removeComponent
    extends_removeAll extends_on extends_unsub extends_setResource env fuel).
Qed.

Lemma new_events_app w w' l : trace w' = trace w ++ l -> new_events w w' = l.
Proof.
  intros H. unfold new_events. rewrite H, skipn_app, skipn_all, Nat.sub_diag. reflexivity.
Qed.

(** ** Storages persist until the world is destroyed *)

Definition storages_persist (w w' : World) : Prop :=
  extends w w' /\
  forall T, has_storage w T = true ->
            has_storage w' T = true \/ In EvWorldDestroyed (new_events w w').

Lemma persist_keep w w' :
  extends w w' -> (forall T, has_storage w T = true -> has_storage w' T = true) ->
  storages_persist w w'.
Proof. intros He Hs. split; [exact He|]. intros T HT. left. now apply Hs. Qed.

Lemma persist_refl w : storages_persist w w.
Proof. apply persist_keep; auto using extends_refl. Qed.

Lemma persist_trans w1 w2 w3 :
  storages_persist w1 w2 -> storages_persist w2 w3 -> storages_persist w1 w3.
Proof.
  intros [[l1 E1] H12] [[l2 E2] H23]. split; [eapply extends_trans; eexists; eauto|].
  rewrite (new_events_app w1 w2 l1 E1) in H12. rewrite (new_events_app w2 w3 l2 E2) in H23.
  rewrite (new_events_app w1 w3 (l1 ++ l2)) by (rewrite E2, E1, <- app_assoc; reflexivity).
  intros T HT. destruct (H12 T HT) as [H2|H2].
  - destruct (H23 T H2) as [H3|H3]; [now left | right; apply in_or_app; now right].
  - right. apply in_or_app. now left.
Qed.

Lemma persist_same w w' :
  componentStorages w' = componentStorages w -> trace w' = trace w -> storages_persist w w'.
Proof.
  intros Hc Ht. apply persist_keep; [now apply extends_same|].
  intros T. unfold has_storage. now rewrite Hc.
Qed.

Lemma has_storage_getStorage w T T' :
  has_storage w T' = true -> has_storage (snd (getStorage w T)) T' = true.
Proof.
  unfold getStorage, has_storage. destruct (smap_get _ _); simpl; [auto|].
  apply smap_has_set.
Qed.

Lemma persist_primitives :
  (forall m w, storages_persist w (set_em m w)) /\
  (forall l w, storages_persist w (set_systems l w)) /\
  (forall ev w, storages_persist w (log ev w)) /\
  (forall w, storages_persist w (reset_world w)) /\
  (forall w T, storages_persist w (registerComponent w T)) /\
  (forall w e T v, storages_persist w (addComponent w e T v)) /\
  (forall w e T, storages_persist w (snd (getComponent w e T))) /\
  (forall w e T, storages_persist w (removeComponent w e T)) /\
  (forall w e, storages_persist w (removeAllComponents w e)) /\
  (forall w ev h, storages_persist w (fst (on w ev h))) /\
  (forall w a h, storages_persist w (unsubscribe w a h)) /\
  (forall w k v, storages_persist w (setResource w k v)).
Proof.
  repeat match goal with |- _ /\ _ => split end; intros;
    try (apply persist_same; reflexivity).
  - split; [exact (extends_log ev w)|]. intros T HT. now left.
  - split; [apply extends_reset|]. intros T _. right.
    rewrite (new_events_app w (reset_world w) [EvWorldDestroyed]) by reflexivity. now left.
  - apply persist_keep; [apply extends_registerComponent|]. intros T' HT'.
    unfold registerComponent. destruct (smap_has _ _); [exact HT'|]. now apply smap_has_set.
  - apply persist_keep; [apply extends_addComponent|]. intros T' HT'.
    unfold addComponent. destruct (negb _); [exact HT'|].
    pose proof (has_storage_getStorage w T T' HT') as Hg.
    destruct (getStorage w T) as [s w1]. unfold has_storage in *. simpl in *.
    now apply smap_has_set.
  - apply persist_keep; [apply extends_getComponent|]. intros T' HT'.
    pose proof (has_storage_getStorage w T T' HT') as Hg.
    unfold getComponent. destruct (getStorage w T) as [s w1]. exact Hg.
  - apply persist_keep; [apply extends_removeComponent|]. intros T' HT'.
    unfold removeComponent. destruct (smap_get _ _); [|exact HT'].
    unfold has_storage in *; simpl. now apply smap_has_set.
  - apply persist_keep; [apply extends_removeAll|]. intros T HT.
    unfold has_storage, smap_has, removeAllComponents in *; simpl.
    rewrite (smap_get_map (storage_remove e)).
    destruct (smap_get _ _); [reflexivity | discriminate].
  - unfold on. destruct (smap_get _ _); apply persist_same; reflexivity.
Qed.

Lemma persist_all_ops env fuel : all_ops env fuel storages_persist.
Proof.
  destruct persist_primitives as (P1 & P2 & P3 & P4 & P5 & P6 & P7 & P8 & P9 & P10 & P11 & P12).
  exact (preserved_by_all_ops storages_persist persist_refl persist_trans
           P1 P2 P3 P4 P5 P6 P7 P8 P9 P10 P11 P12 env fuel).
Qed.

(** ** C2 *)

(** C2 (corrected).  Registering [T], or adding a [T] component to an alive
    entity, makes a storage for [T] exist; once it exists, a storage
    persists through every operation (with all the callbacks run inside
    it) unless [world.destroy()] ran, which leaves no storage at all. *)
Theorem storage_exists_after_write_until_destroy :
  forall env T,
  (forall f w w', exec env f (OpRegisterComponent T) w = Some w' -> has_storage w' T = true) /\
  (forall f w e v w', em_exists e (em w) = true ->
     exec env f (OpAddComponent e T v) w = Some w' -> has_storage w' T = true) /\
  (forall f o w w', exec env f o w = Some w' -> has_storage w T = true ->
     has_storage w' T = true \/ In EvWorldDestroyed (new_events w w')) /\
  (forall f w w', exec env f OpDestroyWorld w = Some w' -> has_storage w' T = false).
Proof.
  intros env T. split; [|split; [|split]].
  - intros f w w' H. exec_step H. injection H as <-.
    unfold registerComponent, has_storage.
    destruct (smap_has (ct_name T) (componentStorages w)) eqn:E; [exact E|].
    simpl. unfold smap_has. now rewrite smap_get_set_eq.
  - intros f w e v w' Hal H. exec_step H. injection H as <-.
    unfold addComponent. rewrite Hal. simpl.
    destruct (getStorage w T) as [s w1]. unfold has_storage, smap_has; simpl.
    now rewrite smap_get_set_eq.
  - intros f o w w' H HT. destruct (persist_all_ops env f) as [Hx _].
    exact (proj2 (Hx o w w' H) T HT).
  - intros f w w' H. exec_step H. split_runs. reflexivity.
Qed.

Lemma storage_exists_after_write_until_destroy_witness :
  exec env_idle 1 (OpRegisterComponent (defineComponent "Position" 0)) init_world
    = Some (registerComponent init_world (defineComponent "Position" 0)) /\
  has_storage (registerComponent init_world (defineComponent "Position" 0))
    (defineComponent "Position" 0) = true.
Proof.
  split; [reflexivity|].
  apply (proj1 (storage_exists_after_write_until_destroy env_idle
                  (defineComponent "Position" 0)) 1 init_world).
  reflexivity.
Defined.

(** C2 counterexample: [Position] is registered, then [world.destroy()]
    runs: the type was registered once, yet no storage exists. *)
Lemma registered_storage_gone_after_destroy :
  exists w,
    run env_idle 5 [OpRegisterComponent (defineComponent "Position" 0); OpDestroyWorld]
      init_world = Some w /\
    has_storage w (defineComponent "Position" 0) = false.
Proof. eexists. split; vm_compute; reflexivity. Qed.

(** [getComponent] goes through [getStorage] and so creates the storage of
    a type that was never written or registered, unlike its siblings
    [hasComponent] and [removeComponent]. *)
Lemma getComponent_creates_storage :
  has_storage init_world (defineComponent "Position" 0) = false /\
  has_storage (snd (getComponent init_world 0 (defineComponent "Position" 0)))
    (defineComponent "Position" 0) = true.
Proof. split; vm_compute; reflexivity. Qed.

(** ** C8 *)

(** C8.  After [world.destroy()], [update(dt)] returns without invoking any
    system and without changing anything, [entities.getAll()] is empty, and
    [getResource(k)] is absent for every key. *)
Theorem world_destroy_inert :
  forall env f w w', exec env f OpDestroyWorld w = Some w' ->
  (forall f' dt, 2 <= f' -> exec env f' (OpUpdate dt) w' = Some w') /\
  em_getAll (em w') = [] /\
  (forall k, getResource w' k = None).
Proof.
  intros env f w w' H. exec_step H. split_runs.
  split; [|split; [reflexivity | reflexivity]].
  intros f' dt Hf. destruct f' as [|[|f'']]; [lia | lia | reflexivity].
Qed.

Lemma world_destroy_inert_witness :
  exec env_idle 3 OpDestroyWorld (setResource init_world "score" 10)
    = Some (reset_world (setResource init_world "score" 10)) /\
  getResource (reset_world (setResource init_world "score" 10)) "score" = None.
Proof.
  split; [reflexivity|].
  apply (world_destroy_inert env_idle 3 (setResource init_world "score" 10)).
  reflexivity.
Defined.


(** ** Well-formedness of the event bus *)

Definition wf_kept (w w' : World) : Prop := wf_events w -> wf_events w'.

Lemma wf_same w w' :
  eventHandlers w' = eventHandlers w -> handlerSets w' = handlerSets w -> wf_kept w w'.
Proof. intros He Hh [H1 H2]. split; [rewrite He, Hh; exact H1 | rewrite Hh; exact H2]. Qed.

Lemma length_update_nth {A} i (f : A -> A) l : List.length (update_nth i f l) = List.length l.
Proof. revert i; induction l as [|x t IH]; intros [|i]; simpl; auto. Qed.

Lemma Forall_update_nth {A} (P : A -> Prop) i f l :
  (forall x, P x -> P (f x)) -> Forall P l -> Forall P (update_nth i f l).
Proof.
  intros Hf Hl. revert i. induction Hl as [|x t Hx Ht IH]; intros [|i]; simpl;
    constructor; auto.
Qed.

Lemma nth_error_update_nth_eq {A} i (f : A -> A) l :
  nth_error (update_nth i f l) i = option_map f (nth_error l i).
Proof. revert i; induction l as [|x t IH]; intros [|i]; simpl; auto. Qed.

Lemma somes_app d1 d2 : somes (d1 ++ d2) = somes d1 ++ somes d2.
Proof. unfold somes. apply flat_map_app. Qed.

Lemma existsb_somes h d : existsb (opt_nat_eqb (Some h)) d = true <-> In h (somes d).
Proof.
  induction d as [|[x|] t IH]; simpl; [split; [discriminate | contradiction]| |exact IH].
  rewrite orb_true_iff, IH. destruct (Nat.eqb_spec h x); split; intuition (subst; auto; discriminate).
Qed.

Lemma somes_hset_add h d :
  somes (hset_add h d) = if existsb (opt_nat_eqb (Some h)) d then somes d else somes d ++ [h].
Proof. unfold hset_add. destruct (existsb _ d); [reflexivity|]. now rewrite somes_app. Qed.

Lemma NoDup_hset_add h d : NoDup (somes d) -> NoDup (somes (hset_add h d)).
Proof.
  intros Hd. rewrite somes_hset_add. destruct (existsb _ d) eqn:E; [exact Hd|].
  apply NoDup_app; [exact Hd | repeat constructor; auto |].
  intros x Hx [<-|[]]. apply existsb_somes in Hx. congruence.
Qed.

Lemma In_hset_add h d : In h (somes (hset_add h d)).
Proof.
  rewrite somes_hset_add. destruct (existsb _ d) eqn:E.
  - now apply existsb_somes.
  - apply in_or_app. right. now left.
Qed.

Lemma somes_hset_delete h d :
  somes (hset_delete h d) = filter (fun x => negb (Nat.eqb h x)) (somes d).
Proof.
  induction d as [|[x|] t IH]; simpl; [reflexivity| |exact IH].
  destruct (Nat.eqb h x); simpl; now rewrite IH.
Qed.

Lemma NoDup_hset_delete h d : NoDup (somes d) -> NoDup (somes (hset_delete h d)).
Proof. intros Hd. rewrite somes_hset_delete. now apply NoDup_filter. Qed.

Lemma not_In_hset_delete h d : ~ In h (somes (hset_delete h d)).
Proof.
  rewrite somes_hset_delete, filter_In. intros [_ H].
  rewrite Nat.eqb_refl in H. discriminate.
Qed.

Lemma wf_on w ev h : wf_kept w (fst (on w ev h)).
Proof.
  intros [H1 H2]. unfold on. destruct (smap_get ev (eventHandlers w)) as [a|] eqn:E; simpl.
  - split; simpl; [rewrite length_update_nth; exact H1|].
    apply Forall_update_nth; [apply NoDup_hset_add | exact H2].
  - split; simpl.
    + intros ev' a'. rewrite length_app. simpl.
      destruct (string_dec ev' ev) as [->|Hne].
      * rewrite smap_get_set_eq. intros [= <-]. lia.
      * rewrite smap_get_set_neq by exact Hne. intros Ha. specialize (H1 _ _ Ha). lia.
    + apply Forall_app. split; [exact H2|]. repeat constructor. simpl. auto.
Qed.

Lemma wf_primitives :
  (forall m w, wf_kept w (set_em m w)) /\
  (forall l w, wf_kept w (set_systems l w)) /\
  (forall ev w, wf_kept w (log ev w)) /\
  (forall w, wf_kept w (reset_world w)) /\
  (forall w T, wf_kept w (registerComponent w T)) /\
  (forall w e T v, wf_kept w (addComponent w e T v)) /\
  (forall w e T, wf_kept w (snd (getComponent w e T))) /\
  (forall w e T, wf_kept w (removeComponent w e T)) /\
  (forall w e, wf_kept w (removeAllComponents w e)) /\
  (forall w ev h, wf_kept w (fst (on w ev h))) /\
  (forall w a h, wf_kept w (unsubscribe w a h)) /\
  (forall w k v, wf_kept w (setResource w k v)).
Proof.
  repeat match goal with |- _ /\ _ => split end; intros;
    try (apply wf_same; reflexivity).
  - intros [_ H2]. split; [simpl; discriminate | exact H2].
  - unfold registerComponent. destruct (smap_has _ _); apply wf_same; reflexivity.
  - unfold addComponent, getStorage. destruct (negb _); [apply wf_same; reflexivity|].
    destruct (smap_get _ _); apply wf_same; reflexivity.
  - unfold getComponent, getStorage. destruct (smap_get _ _); apply wf_same; reflexivity.
  - unfold removeComponent. destruct (smap_get _ _); apply wf_same; reflexivity.
  - apply wf_on.
  - intros [H1 H2]. split; simpl; [rewrite length_update_nth; exact H1|].
    apply Forall_update_nth; [apply NoDup_hset_delete | exact H2].
Qed.

Lemma wf_all_ops env fuel : all_ops env fuel wf_kept.
Proof.
  destruct wf_primitives as (P1 & P2 & P3 & P4 & P5 & P6 & P7 & P8 & P9 & P10 & P11 & P12).
  refine (preserved_by_all_ops wf_kept _ _ P1 P2 P3 P4 P5 P6 P7 P8 P9 P10 P11 P12 env fuel).
  - intros w H. exact H.
  - intros w1 w2 w3 H12 H23 H. auto.
Qed.

Lemma wf_reachable env w : reachable env w -> wf_events w.
Proof.
  intros (fuel & ops & H). destruct (wf_all_ops env fuel) as (_ & Hr & _).
  apply (Hr ops init_world w H). split; [simpl; discriminate | constructor].
Qed.

(** ** Callbacks that leave the handler sets alone *)

Definition handler_free (l : list Ev) : Prop := forall h d, ~ In (EvHandler h d) l.

Definition sets_kept (w w' : World) : Prop :=
  handlerSets w' = handlerSets w /\ exists l, trace w' = trace w ++ l /\ handler_free l.

Lemma sets_kept_same w w' :
  handlerSets w' = handlerSets w -> trace w' = trace w -> sets_kept w w'.
Proof.
  intros H1 H2. split; [exact H1|]. exists []. rewrite H2, app_nil_r.
  split; [reflexivity | intros h d []].
Qed.

Lemma sets_kept_refl w : sets_kept w w.
Proof. now apply sets_kept_same. Qed.

Lemma sets_kept_trans w1 w2 w3 : sets_kept w1 w2 -> sets_kept w2 w3 -> sets_kept w1 w3.
Proof.
  intros [H1 (l1 & E1 & F1)] [H2 (l2 & E2 & F2)]. split; [congruence|].
  exists (l1 ++ l2). split; [rewrite E2, E1, <- app_assoc; reflexivity|].
  intros h d Hin. apply in_app_or in Hin as [Hin|Hin]; [eapply F1 | eapply F2]; eauto.
Qed.

Lemma sets_kept_log ev w :
  (forall h d, ev <> EvHandler h d) -> sets_kept w (log ev w).
Proof.
  intros Hev. split; [reflexivity|]. exists [ev]. split; [reflexivity|].
  intros h d [Hin|[]]. exact (Hev h d Hin).
Qed.

Lemma sets_kept_reset w : sets_kept w (reset_world w).
Proof.
  split; [reflexivity|]. exists [EvWorldDestroyed]. split; [reflexivity|].
  intros h d [Hin|[]]. discriminate.
Qed.

Lemma sets_kept_component_ops :
  (forall w T, sets_kept w (registerComponent w T)) /\
  (forall w e T v, sets_kept w (addComponent w e T v)) /\
  (forall w e T, sets_kept w (snd (getComponent w e T))) /\
  (forall w e T, sets_kept w (removeComponent w e T)).
Proof.
  repeat match goal with |- _ /\ _ => split end; intros.
  - unfold registerComponent. destruct (smap_has (ct_name T) (componentStorages w)); now apply sets_kept_same.
  - unfold addComponent, getStorage. destruct (negb (em_exists e (em w))).
    + apply sets_kept_log. discriminate.
    + destruct (smap_get (ct_name T) (componentStorages w)); now apply sets_kept_same.
  - unfold getComponent, getStorage. destruct (smap_get (ct_name T) (componentStorages w)); now apply sets_kept_same.
  - unfold removeComponent. destruct (smap_get (ct_name T) (componentStorages w)); now apply sets_kept_same.
Qed.

Create HintDb evq.
#[local] Hint Resolve sets_kept_refl sets_kept_reset : evq.
#[local] Hint Extern 1 (sets_kept _ (log _ _)) => (apply sets_kept_log; discriminate) : evq.
#[local] Hint Extern 1 (sets_kept _ _) => (apply sets_kept_same; reflexivity) : evq.
#[local] Hint Extern 1 (sets_kept _ _) => (apply sets_kept_component_ops) : evq.

(** Chains the steps of a run: the relation [Rl] is closed under [trans],
    and [prim] proves its single steps. *)
Ltac chain_rel trans prim :=
  first
  [ solve [prim]
  | assumption
  | match goal with
    | |- ?Rl ?a (set_systems _ ?m) => apply (trans a m); [chain_rel trans prim | solve [prim]]
    | |- ?Rl ?a (log _ ?m) => apply (trans a m); [chain_rel trans prim | solve [prim]]
    | |- ?Rl ?a (reset_world ?m) => apply (trans a m); [chain_rel trans prim | solve [prim]]
    | H : ?Rl ?m ?b |- ?Rl ?a ?b => apply (trans a m b); [chain_rel trans prim | exact H]
    end ].

Section EventQuiet.
Variable env : Env.
Hypothesis Henv : env_quiet ev_quiet env.

Lemma ev_quiet_ops fuel :
  (forall o w w', ev_quiet o = true -> exec env fuel o w = Some w' -> sets_kept w w') /\
  (forall ops w w', forallb ev_quiet ops = true -> run env fuel ops w = Some w' -> sets_kept w w') /\
  (forall s w w', call_cleanup env fuel s w = Some w' -> sets_kept w w') /\
  (forall dt i w w', update_loop env fuel dt i w = Some w' -> sets_kept w w') /\
  (forall i w w', cleanup_loop env fuel i w = Some w' -> sets_kept w w').
Proof.
  destruct Henv as (Hi & Hu & Hc & Hh).
  induction fuel as [|f IH]; [repeat split; intros; discriminate|].
  destruct IH as (IHe & IHr & IHc & IHu & IHl).
  repeat match goal with |- _ /\ _ => split end;
    [intros o w w' Hq H; destruct o; simpl in H; try discriminate Hq
    |intros ops w w' Hq H; destruct ops as [|o ops]; simpl in H;
       [|simpl in Hq; apply andb_true_iff in Hq as [Hq1 Hq2]]
    |intros s w w' H; simpl in H
    |intros dt i w w' H; simpl in H
    |intros i w w' H; simpl in H];
    split_runs;
    repeat match goal with
    | H : exec env f _ _ = Some _ |- _ => apply IHe in H; [|assumption]
    | H : call_cleanup env f _ _ = Some _ |- _ => apply IHc in H
    | H : update_loop env f _ _ _ = Some _ |- _ => apply IHu in H
    | H : cleanup_loop env f _ _ = Some _ |- _ => apply IHl in H
    | H : run env f _ _ = Some _ |- _ =>
        apply IHr in H; [|first [assumption | apply Hu | eapply Hi; eassumption
                                 | eapply Hc; eassumption]]
    end;
    chain_rel sets_kept_trans ltac:(eauto with evq).
Qed.

End EventQuiet.

(** Operations that run no callback leave every handler set alone, in any
    environment. *)
Lemma handler_ops_kept env fuel :
  (forall o w w', handler_op o = true -> exec env fuel o w = Some w' -> sets_kept w w') /\
  (forall ops w w', forallb handler_op ops = true -> run env fuel ops w = Some w' -> sets_kept w w').
Proof.
  induction fuel as [|f IH]; [split; intros; discriminate|].
  destruct IH as (IHe & IHr).
  split;
    [intros o w w' Hq H; destruct o; simpl in H; try discriminate Hq
    |intros ops w w' Hq H; destruct ops as [|o ops]; simpl in H;
       [|simpl in Hq; apply andb_true_iff in Hq as [Hq1 Hq2]]];
    split_runs;
    repeat match goal with
    | H : exec env f _ _ = Some _ |- _ => apply IHe in H; [|assumption]
    | H : run env f _ _ = Some _ |- _ => apply IHr in H; [|assumption]
    end;
    chain_rel sets_kept_trans ltac:(eauto with evq).
Qed.

Lemma handler_run_kept env (Hq : emission_quiet env) f h d w w' :
  run env f (env_handler env h d) w = Some w' -> sets_kept w w'.
Proof.
  intros H. destruct Hq as [Henv|Hh].
  - exact (proj1 (proj2 (ev_quiet_ops env Henv f)) _ _ _ (proj2 (proj2 (proj2 Henv)) h d) H).
  - exact (proj2 (handler_ops_kept env f) _ _ _ (Hh h d) H).
Qed.

(** ** Emission *)

Lemma handler_calls_app h l1 l2 :
  handler_calls h (l1 ++ l2) = handler_calls h l1 ++ handler_calls h l2.
Proof. unfold handler_calls. apply flat_map_app. Qed.

Lemma handler_calls_free h l : handler_free l -> handler_calls h l = [].
Proof.
  induction l as [|ev t IH]; intros Hf; [reflexivity|].
  destruct ev; simpl; try (apply IH; intros h' d' Hin; apply (Hf h' d'); now right).
  exfalso. apply (Hf handler data). now left.
Qed.

Lemma skipn_nth_error {A} (l : list A) i x :
  nth_error l i = Some x -> skipn i l = x :: skipn (S i) l.
Proof.
  revert i. induction l as [|y t IH]; intros [|i] H; simpl in *; try discriminate.
  - now injection H as ->.
  - now apply IH.
Qed.

Lemma skipn_nth_error_None {A} (l : list A) i : nth_error l i = None -> skipn i l = [].
Proof. intros H. apply nth_error_None in H. now apply skipn_all2. Qed.

Definition calls_in (h : nat) (d : option Value) (l : list nat) : list (option Value) :=
  flat_map (fun x => if Nat.eqb h x then [d] else []) l.

Lemma calls_in_none h d l : ~ In h l -> calls_in h d l = [].
Proof.
  induction l as [|x t IH]; intros Hn; [reflexivity|]. simpl.
  destruct (Nat.eqb_spec h x) as [->|_]; [exfalso; apply Hn; now left|].
  apply IH. intros Hin. apply Hn. now right.
Qed.

Lemma calls_in_once h d l : NoDup l -> In h l -> calls_in h d l = [d].
Proof.
  induction l as [|x t IH]; intros Hnd Hin; [contradiction|].
  inversion Hnd as [|? ? Hx Ht]; subst. simpl.
  destruct (Nat.eqb_spec h x) as [->|Hne].
  - now rewrite calls_in_none.
  - destruct Hin as [->|Hin]; [contradiction|]. now apply IH.
Qed.

Section Emission.
Variable env : Env.
Hypothesis Henv : emission_quiet env.

Lemma emit_loop_calls fuel :
  forall a d i w w' data,
  nth_error (handlerSets w) a = Some data ->
  emit_loop env fuel a d i w = Some w' ->
  exists l, trace w' = trace w ++ l /\
            forall h, handler_calls h l = calls_in h d (somes (skipn i data)).
Proof.
  induction fuel as [|f IH]; intros a d i w w' data Hd H; [discriminate|].
  simpl in H. rewrite Hd in H.
  destruct (nth_error data i) as [[h'|]|] eqn:Ei.
  - destruct (run env f (env_handler env h' d) (log (EvHandler h' d) w)) as [w1|] eqn:Er;
      [|discriminate].
    destruct (handler_run_kept env Henv f h' d _ _ Er) as [Hs1 (l1 & E1 & F1)].
    destruct (IH a d (S i) w1 w' data ltac:(rewrite Hs1; exact Hd) H) as (l2 & E2 & C2).
    exists ([EvHandler h' d] ++ l1 ++ l2). split.
    + rewrite E2, E1. simpl. now rewrite <- !app_assoc.
    + intros h. rewrite (skipn_nth_error _ _ _ Ei).
      rewrite !handler_calls_app, (handler_calls_free h l1 F1), C2. simpl.
      unfold calls_in. simpl. destruct (Nat.eqb h h'); reflexivity.
  - destruct (IH a d (S i) w w' data Hd H) as (l & E & C).
    exists l. split; [exact E|]. intros h. now rewrite (skipn_nth_error _ _ _ Ei), C.
  - injection H as <-. exists []. rewrite app_nil_r. split; [reflexivity|].
    intros h. now rewrite skipn_nth_error_None.
Qed.

(** What [emit(ev, d)] does to a handler [h]: it is invoked once per
    occurrence in the set registered for [ev]. *)
Lemma emit_calls f w w' ev a data d :
  smap_get ev (eventHandlers w) = Some a ->
  nth_error (handlerSets w) a = Some data ->
  exec env f (OpEmit ev d) w = Some w' ->
  forall h, handler_calls h (new_events w w') = calls_in h d (somes data).
Proof.
  intros Ha Hd H h. exec_step H. rewrite Ha in H.
  destruct (emit_loop_calls f a d 0 w w' data Hd H) as (l & E & C).
  now rewrite (new_events_app w w' l E), C.
Qed.

End Emission.

Lemma on_registers w ev h w1 u :
  wf_events w -> on w ev h = (w1, u) ->
  snd u = h /\ smap_get ev (eventHandlers w1) = Some (fst u) /\
  exists data, nth_error (handlerSets w1) (fst u) = Some data /\
               In h (somes data) /\ NoDup (somes data).
Proof.
  intros [H1 H2] Hon. unfold on in Hon.
  destruct (smap_get ev (eventHandlers w)) as [a|] eqn:E; injection Hon as <- <-; simpl.
  - destruct (nth_error (handlerSets w) a) as [d|] eqn:Ed.
    2:{ apply nth_error_None in Ed. specialize (H1 _ _ E). lia. }
    split; [reflexivity|]. split; [exact E|].
    exists (hset_add h d). rewrite nth_error_update_nth_eq, Ed. split; [reflexivity|].
    split; [apply In_hset_add|]. apply NoDup_hset_add.
    rewrite Forall_forall in H2. apply H2. eapply nth_error_In; eassumption.
  - split; [reflexivity|]. split; [apply smap_get_set_eq|].
    exists (hset_add h []). rewrite nth_error_app2, Nat.sub_diag by lia.
    split; [reflexivity|]. split; [apply In_hset_add|]. simpl. repeat constructor. auto.
Qed.

Lemma on_then_emit env w ev h p w1 u f w2 :
  emission_quiet env -> wf_events w -> on w ev h = (w1, u) ->
  exec env f (OpEmit ev p) w1 = Some w2 ->
  handler_calls h (new_events w1 w2) = [p].
Proof.
  intros Henv Hwf Hon H.
  destruct (on_registers w ev h w1 u Hwf Hon) as (_ & Hg & data & Hd & Hin & Hnd).
  rewrite (emit_calls env Henv f w1 w2 ev (fst u) data p Hg Hd H h).
  now apply calls_in_once.
Qed.

Lemma unsubscribe_then_emit env w ev h p w1 u f1 f2 w2 w3 :
  emission_quiet env -> wf_events w -> on w ev h = (w1, u) ->
  exec env f1 (OpUnsubscribe (fst u) (snd u)) w1 = Some w2 ->
  exec env f2 (OpEmit ev p) w2 = Some w3 ->
  handler_calls h (new_events w2 w3) = [].
Proof.
  intros Henv Hwf Hon H1 H2.
  destruct (on_registers w ev h w1 u Hwf Hon) as (Hh & Hg & data & Hd & _ & _).
  exec_step H1. injection H1 as <-. rewrite Hh in *.
  refine (eq_trans (emit_calls env Henv f2 (unsubscribe w1 (fst u) h) w3 ev (fst u) (hset_delete h data) p
                      Hg _ H2 h) _).
  - unfold unsubscribe. simpl. now rewrite nth_error_update_nth_eq, Hd.
  - apply calls_in_none, not_In_hset_delete.
Qed.

Lemma env_idle_quiet q : env_quiet q env_idle.
Proof. repeat split; intros; simpl in *; try discriminate; reflexivity. Qed.

Lemma init_reachable env : reachable env init_world.
Proof. now exists 1, []. Qed.

(** ** C9 *)




(** ** C10 *)

Lemma update_nth_id {A} i (f : A -> A) l x :
  nth_error l i = Some x -> f x = x -> update_nth i f l = l.
Proof.
  revert i. induction l as [|y t IH]; intros [|i] H Hf; simpl in *; try discriminate.
  - injection H as ->. now rewrite Hf.
  - now rewrite (IH i H Hf).
Qed.

Lemma on_idempotent w ev h w1 u :
  wf_events w -> on w ev h = (w1, u) -> on w1 ev h = (w1, u).
Proof.
  intros Hwf Hon.
  destruct (on_registers w ev h w1 u Hwf Hon) as (Hh & Hg & data & Hd & Hin & _).
  unfold on. rewrite Hg.
  rewrite (update_nth_id (fst u) (hset_add h) (handlerSets w1) data Hd).
  - destruct u as [a h']. simpl in Hh. subst h'. destruct w1. reflexivity.
  - unfold hset_add. apply existsb_somes in Hin. now rewrite Hin.
Qed.




(** ** Callbacks that leave the system list alone *)

Definition sys_event (ev : Ev) : Prop :=
  match ev with EvInit _ | EvUpdate _ _ | EvCleanup _ => True | _ => False end.

Definition sys_free (l : list Ev) : Prop := forall ev, In ev l -> ~ sys_event ev.

Definition sys_kept (w w' : World) : Prop :=
  systems w' = systems w /\ exists l, trace w' = trace w ++ l /\ sys_free l.

Lemma sys_kept_same w w' : systems w' = systems w -> trace w' = trace w -> sys_kept w w'.
Proof.
  intros H1 H2. split; [exact H1|]. exists []. rewrite H2, app_nil_r.
  split; [reflexivity | intros ev []].
Qed.

Lemma sys_kept_refl w : sys_kept w w.
Proof. now apply sys_kept_same. Qed.

Lemma sys_kept_trans w1 w2 w3 : sys_kept w1 w2 -> sys_kept w2 w3 -> sys_kept w1 w3.
Proof.
  intros [H1 (l1 & E1 & F1)] [H2 (l2 & E2 & F2)]. split; [congruence|].
  exists (l1 ++ l2). split; [rewrite E2, E1, <- app_assoc; reflexivity|].
  intros ev Hin. apply in_app_or in Hin as [Hin|Hin]; [apply F1 | apply F2]; exact Hin.
Qed.

Lemma sys_kept_log ev w : ~ sys_event ev -> sys_kept w (log ev w).
Proof.
  intros Hev. split; [reflexivity|]. exists [ev]. split; [reflexivity|].
  intros ev' [<-|[]]. exact Hev.
Qed.

Lemma sys_kept_component_ops :
  (forall w T, sys_kept w (registerComponent w T)) /\
  (forall w e T v, sys_kept w (addComponent w e T v)) /\
  (forall w e T, sys_kept w (snd (getComponent w e T))) /\
  (forall w e T, sys_kept w (removeComponent w e T)) /\
  (forall w ev h, sys_kept w (fst (on w ev h))).
Proof.
  repeat match goal with |- _ /\ _ => split end; intros.
  - unfold registerComponent. destruct (smap_has (ct_name T) (componentStorages w)); now apply sys_kept_same.
  - unfold addComponent, getStorage. destruct (negb (em_exists e (em w))).
    + apply sys_kept_log. intros H. exact H.
    + destruct (smap_get (ct_name T) (componentStorages w)); now apply sys_kept_same.
  - unfold getComponent, getStorage. destruct (smap_get (ct_name T) (componentStorages w)); now apply sys_kept_same.
  - unfold removeComponent. destruct (smap_get (ct_name T) (componentStorages w)); now apply sys_kept_same.
  - unfold on. destruct (smap_get ev (eventHandlers w)); now apply sys_kept_same.
Qed.

Create HintDb sysq.
#[local] Hint Resolve sys_kept_refl : sysq.
#[local] Hint Extern 1 (sys_kept _ (log _ _)) => (apply sys_kept_log; let H := fresh in intros H; exact H) : sysq.
#[local] Hint Extern 1 (sys_kept _ _) => (apply sys_kept_same; reflexivity) : sysq.
#[local] Hint Extern 1 (sys_kept _ _) => (apply sys_kept_component_ops) : sysq.

Lemma updates_of_app l1 l2 : updates_of (l1 ++ l2) = updates_of l1 ++ updates_of l2.
Proof. unfold updates_of. apply flat_map_app. Qed.

Lemma sys_free_tail ev l : sys_free (ev :: l) -> sys_free l.
Proof. intros Hf ev' Hin. apply Hf. now right. Qed.

Lemma updates_of_free l : sys_free l -> updates_of l = [].
Proof.
  induction l as [|ev t IH]; intros Hf; [reflexivity|].
  pose proof (sys_free_tail ev t Hf) as Ht.
  destruct ev as [e|s|s dt|s|h d|]; try exact (IH Ht).
  exfalso. apply (Hf (EvUpdate s dt)); [now left | exact I].
Qed.

Lemma count_cleanups_app s l1 l2 :
  count_cleanups s (l1 ++ l2) = count_cleanups s l1 + count_cleanups s l2.
Proof. unfold count_cleanups. now rewrite filter_app, length_app. Qed.

Lemma count_cleanups_free s l : sys_free l -> count_cleanups s l = 0.
Proof.
  induction l as [|ev t IH]; intros Hf; [reflexivity|].
  pose proof (sys_free_tail ev t Hf) as Ht.
  destruct ev as [e|c|c dt|c|h d|]; try exact (IH Ht).
  exfalso. apply (Hf (EvCleanup c)); [now left | exact I].
Qed.

Section SysQuiet.
Variable env : Env.
Hypothesis Henv : env_quiet sys_quiet env.

Lemma sys_quiet_ops fuel :
  (forall o w w', sys_quiet o = true -> exec env fuel o w = Some w' -> sys_kept w w') /\
  (forall ops w w', forallb sys_quiet ops = true -> run env fuel ops w = Some w' -> sys_kept w w') /\
  (forall a d i w w', emit_loop env fuel a d i w = Some w' -> sys_kept w w').
Proof.
  destruct Henv as (Hi & Hu & Hc & Hh).
  induction fuel as [|f IH]; [repeat split; intros; discriminate|].
  destruct IH as (IHe & IHr & IHm).
  repeat match goal with |- _ /\ _ => split end;
    [intros o w w' Hq H; destruct o; simpl in H; try discriminate Hq
    |intros ops w w' Hq H; destruct ops as [|o ops]; simpl in H;
       [|simpl in Hq; apply andb_true_iff in Hq as [Hq1 Hq2]]
    |intros a d i w w' H; simpl in H];
    split_runs;
    repeat match goal with
    | H : exec env f _ _ = Some _ |- _ => apply IHe in H; [|assumption]
    | H : emit_loop env f _ _ _ _ = Some _ |- _ => apply IHm in H
    | H : run env f _ _ = Some _ |- _ => apply IHr in H; [|first [assumption | apply Hh]]
    end;
    chain_rel sys_kept_trans ltac:(eauto with sysq).
Qed.

(** [system.cleanup?.(world)] with a quiet cleanup: one [EvCleanup] if
    the system has a cleanup, none otherwise. *)
Lemma call_cleanup_quiet f s w w' :
  call_cleanup env f s w = Some w' ->
  systems w' = systems w /\
  exists l, trace w' = trace w ++ l /\ updates_of l = [] /\
    forall x, count_cleanups x l =
      if System_eq_dec x s then match env_cleanup env (sys_id s) with Some _ => 1 | None => 0 end
      else 0.
Proof.
  destruct Henv as (Hi & Hu & Hc & Hh). intros H.
  destruct f as [|f]; simpl in H; [discriminate|].
  destruct (env_cleanup env (sys_id s)) as [body|] eqn:Ec.
  - apply (proj1 (proj2 (sys_quiet_ops f))) in H; [|exact (Hc _ _ Ec)].
    destruct H as [Hs (l & E & F)]. simpl in Hs, E. split; [exact Hs|].
    exists (EvCleanup s :: l). split; [rewrite E, <- app_assoc; reflexivity|].
    change (EvCleanup s :: l) with ([EvCleanup s] ++ l).
    rewrite updates_of_app, (updates_of_free l F). split; [reflexivity|].
    intros x. rewrite count_cleanups_app, (count_cleanups_free x l F).
    unfold count_cleanups. simpl. destruct (System_eq_dec x s); reflexivity.
  - injection H as <-. split; [reflexivity|]. exists []. rewrite app_nil_r.
    split; [reflexivity|]. split; [reflexivity|]. intros x. destruct (System_eq_dec x s); reflexivity.
Qed.

(** The loop of [update] with quiet callbacks: the system list does not
    change and the updates of the systems from index [i] on run, in order. *)
Lemma update_loop_quiet fuel :
  forall dt i w w', update_loop env fuel dt i w = Some w' ->
  systems w' = systems w /\
  exists l, trace w' = trace w ++ l /\ updates_of l = skipn i (systems w).
Proof.
  destruct Henv as (Hi & Hu & Hc & Hh).
  induction fuel as [|f IH]; intros dt i w w' H; [discriminate|].
  simpl in H. destruct (nth_error (systems w) i) as [s|] eqn:Ei.
  - destruct (run env f (env_update env (sys_id s) dt) (log (EvUpdate s dt) w)) as [w1|] eqn:Er;
      [|discriminate].
    destruct (proj1 (proj2 (sys_quiet_ops f)) _ _ _ (Hu (sys_id s) dt) Er) as [Hs1 (l1 & E1 & F1)].
    destruct (IH dt (S i) w1 w' H) as [Hs2 (l2 & E2 & U2)].
    simpl in Hs1, E1. split; [congruence|].
    exists (EvUpdate s dt :: l1 ++ l2). split; [rewrite E2, E1, <- !app_assoc; reflexivity|].
    rewrite (skipn_nth_error _ _ _ Ei).
    change (EvUpdate s dt :: l1 ++ l2) with ([EvUpdate s dt] ++ l1 ++ l2).
    rewrite !updates_of_app, (updates_of_free l1 F1), U2, Hs1. reflexivity.
  - injection H as <-. split; [reflexivity|]. exists []. rewrite app_nil_r.
    split; [reflexivity|]. now rewrite (skipn_nth_error_None _ _ Ei).
Qed.

Lemma cleanup_loop_quiet fuel :
  forall i w w', cleanup_loop env fuel i w = Some w' -> systems w' = systems w.
Proof.
  induction fuel as [|f IH]; intros i w w' H; [discriminate|].
  simpl in H. destruct (nth_error (systems w) i) as [s|]; [|now injection H as <-].
  destruct (call_cleanup env f s w) as [w1|] eqn:Ec; [|discriminate].
  rewrite (IH _ _ _ H). exact (proj1 (call_cleanup_quiet f s w w1 Ec)).
Qed.

End SysQuiet.

(** ** The system list *)

Lemma find_index_nth {A} (p : A -> bool) l i x :
  find_index p l = Some i -> nth_error l i = Some x -> p x = true.
Proof.
  revert i. induction l as [|y t IH]; intros i Hf Hn; simpl in Hf; [discriminate|].
  destruct (p y) eqn:Ey.
  - injection Hf as <-. simpl in Hn. now injection Hn as <-.
  - destruct (find_index p t) as [j|] eqn:Ej; simpl in Hf; [|discriminate].
    injection Hf as <-. simpl in Hn. exact (IH j eq_refl Hn).
Qed.

Lemma find_index_some {A} (p : A -> bool) l i :
  find_index p l = Some i -> exists x, nth_error l i = Some x.
Proof.
  revert i. induction l as [|y t IH]; intros i Hf; simpl in Hf; [discriminate|].
  destruct (p y).
  - injection Hf as <-. now exists y.
  - destruct (find_index p t) as [j|] eqn:Ej; simpl in Hf; [|discriminate].
    injection Hf as <-. exact (IH j eq_refl).
Qed.

Lemma find_index_None {A} (p : A -> bool) l x :
  find_index p l = None -> In x l -> p x = false.
Proof.
  induction l as [|y t IH]; simpl; intros Hf Hin; [contradiction|].
  destruct (p y) eqn:Ey; [discriminate|].
  destruct (find_index p t) eqn:Ej; [discriminate|].
  destruct Hin as [<-|Hin]; auto.
Qed.

Lemma filter_none n l :
  (forall x, In x l -> name_is n x = false) ->
  filter (fun x => negb (name_is n x)) l = l.
Proof.
  induction l as [|y t IH]; intros H; [reflexivity|]. simpl.
  rewrite (H y (or_introl eq_refl)). simpl. f_equal.
  apply IH. intros x Hx. apply H. now right.
Qed.

Lemma filter_find_None n l :
  find_index (name_is n) l = None -> filter (fun x => negb (name_is n x)) l = l.
Proof. intros H. apply filter_none. intros x Hx. exact (find_index_None _ _ x H Hx). Qed.

(** With distinct names, the [splice] of [addSystem] and [removeSystem]
    at the index found before the cleanup removes the system of that name. *)
Lemma splice_find_name n l i :
  NoDup (map sys_name l) -> find_index (name_is n) l = Some i ->
  splice_out i l = filter (fun x => negb (name_is n x)) l.
Proof.
  revert i. induction l as [|y t IH]; intros i Hnd Hf; simpl in Hf; [discriminate|].
  simpl in Hnd. apply NoDup_cons_iff in Hnd as [Hy Ht].
  destruct (name_is n y) eqn:Ey.
  - injection Hf as <-. unfold splice_out; simpl. rewrite Ey. simpl.
    symmetry. apply filter_none. intros x Hx.
    destruct (name_is n x) eqn:E; [|reflexivity]. exfalso. apply Hy.
    unfold name_is in Ey, E. apply String.eqb_eq in Ey, E. rewrite Ey, <- E.
    now apply in_map.
  - destruct (find_index (name_is n) t) as [j|] eqn:Ej; simpl in Hf; [|discriminate].
    injection Hf as <-. unfold splice_out in *. simpl. rewrite Ey. simpl. f_equal.
    now apply IH.
Qed.

Lemma nodup_names_unique l a b :
  NoDup (map sys_name l) -> In a l -> In b l -> sys_name a = sys_name b -> a = b.
Proof.
  induction l as [|x t IH]; intros Hnd Ha Hb Hn; [contradiction|].
  simpl in Hnd. apply NoDup_cons_iff in Hnd as [Hx Ht].
  destruct Ha as [Ha|Ha], Hb as [Hb|Hb]; subst; auto; exfalso; apply Hx;
    first [rewrite Hn; now apply in_map | rewrite <- Hn; now apply in_map].
Qed.

Lemma name_is_sym a b : name_is (sys_name a) b = name_is (sys_name b) a.
Proof. unfold name_is. apply String.eqb_sym. Qed.

Lemma insert_system_perm s l : Permutation (insert_system s l) (s :: l).
Proof.
  unfold insert_system. destruct (find_index _ l) as [i|].
  - transitivity (s :: firstn i l ++ skipn i l).
    + symmetry. apply Permutation_middle.
    + now rewrite firstn_skipn.
  - symmetry. apply Permutation_cons_append.
Qed.

Lemma insert_system_cons s x l :
  insert_system s (x :: l) =
  if Z.ltb (priority s) (priority x) then s :: x :: l else x :: insert_system s l.
Proof.
  unfold insert_system. cbn [find_index].
  destruct (Z.ltb (priority s) (priority x)); [reflexivity|].
  destruct (find_index _ l); reflexivity.
Qed.

Lemma sorted_filter (f : System -> bool) l :
  StronglySorted prio_le l -> StronglySorted prio_le (filter f l).
Proof.
  induction l as [|x t IH]; intros H; [constructor|].
  apply StronglySorted_inv in H as [Ht Hx]. simpl. destruct (f x); [|now apply IH].
  constructor; [now apply IH|]. rewrite Forall_forall in *. intros y Hy.
  apply filter_In in Hy as [Hy _]. now apply Hx.
Qed.

Lemma sorted_insert s l :
  StronglySorted prio_le l -> StronglySorted prio_le (insert_system s l).
Proof.
  induction l as [|x t IH]; intros Hs.
  - unfold insert_system; simpl. repeat constructor.
  - rewrite insert_system_cons. apply StronglySorted_inv in Hs as [Ht Hx].
    destruct (Z.ltb_spec (priority s) (priority x)) as [Hlt|Hge].
    + constructor; [constructor; assumption|]. constructor; [unfold prio_le; lia|].
      eapply Forall_impl; [|exact Hx]. unfold prio_le; intros; lia.
    + constructor; [now apply IH|]. apply Forall_forall. intros y Hy.
      apply (Permutation_in _ (insert_system_perm s t)) in Hy.
      destruct Hy as [<-|Hy]; [unfold prio_le; lia|].
      rewrite Forall_forall in Hx. now apply Hx.
Qed.

Lemma filter_all_false {A} (f : A -> bool) l :
  (forall y, In y l -> f y = false) -> filter f l = [].
Proof.
  induction l as [|x t IH]; intros H; [reflexivity|]. simpl.
  rewrite (H x (or_introl eq_refl)). apply IH. intros y Hy. apply H. now right.
Qed.

(** Stable insertion: among the systems of one priority, the inserted one
    comes last. *)
Lemma filter_prio_insert p s l :
  StronglySorted prio_le l ->
  filter (prio_is p) (insert_system s l) =
  filter (prio_is p) l ++ (if prio_is p s then [s] else []).
Proof.
  induction l as [|x t IH]; intros Hs.
  - unfold insert_system; simpl. destruct (prio_is p s); reflexivity.
  - rewrite insert_system_cons. pose proof Hs as Hs'.
    apply StronglySorted_inv in Hs as [Ht Hx].
    destruct (Z.ltb_spec (priority s) (priority x)) as [Hlt|Hge].
    + change (filter (prio_is p) (s :: x :: t))
        with (if prio_is p s then s :: filter (prio_is p) (x :: t) else filter (prio_is p) (x :: t)).
      destruct (prio_is p s) eqn:Es.
      * rewrite (filter_all_false (prio_is p) (x :: t)); [reflexivity|].
        intros y Hy. unfold prio_is in *. apply Z.eqb_eq in Es. apply Z.eqb_neq.
        destruct Hy as [<-|Hy]; [lia|].
        rewrite Forall_forall in Hx. specialize (Hx y Hy). unfold prio_le in Hx. lia.
      * rewrite app_nil_r. reflexivity.
    + cbn [filter]. rewrite (IH Ht). destruct (prio_is p x); reflexivity.
Qed.

(** Adding a system: the last one added under a name is kept. *)
Lemma latest_by_name_snoc hist s :
  latest_by_name (hist ++ [s]) =
  filter (fun x => negb (name_is (sys_name s) x)) (latest_by_name hist) ++ [s].
Proof.
  induction hist as [|x t IH]; [reflexivity|].
  cbn [app latest_by_name]. rewrite existsb_app. cbn [existsb]. rewrite orb_false_r, IH.
  destruct (existsb (name_is (sys_name x)) t); cbn [orb]; [reflexivity|].
  destruct (name_is (sys_name x) s) eqn:Exs; cbn [filter];
    rewrite name_is_sym, Exs; reflexivity.
Qed.

Lemma filter_comm {A} (f g : A -> bool) l : filter f (filter g l) = filter g (filter f l).
Proof.
  induction l as [|x t IH]; [reflexivity|]. cbn [filter].
  destruct (g x) eqn:Eg, (f x) eqn:Ef; cbn [filter]; rewrite ?Eg, ?Ef; now rewrite IH.
Qed.

Lemma NoDup_map_filter {A B} (g : A -> B) (f : A -> bool) l :
  NoDup (map g l) -> NoDup (map g (filter f l)).
Proof.
  induction l as [|x t IH]; intros H; [constructor|]. simpl in H.
  apply NoDup_cons_iff in H as [Hx Ht]. simpl. destruct (f x); [|now apply IH].
  simpl. constructor; [|now apply IH]. intros Hin. apply Hx.
  apply in_map_iff in Hin as (y & Hy & Hyin). apply filter_In in Hyin as [Hyin _].
  rewrite <- Hy. now apply in_map.
Qed.

Lemma names_after_add s l :
  NoDup (map sys_name l) ->
  NoDup (map sys_name (insert_system s (filter (fun x => negb (name_is (sys_name s) x)) l))).
Proof.
  intros Hnd. eapply Permutation_NoDup.
  - apply Permutation_map. symmetry. apply insert_system_perm.
  - simpl. constructor; [|now apply NoDup_map_filter].
    intros Hin. apply in_map_iff in Hin as (y & Hy & Hyin).
    apply filter_In in Hyin as [_ Hf]. unfold name_is in Hf.
    rewrite Hy, String.eqb_refl in Hf. discriminate.
Qed.

(** The ordering invariant of a system list built by [addSystem] calls
    [hist]: sorted by priority, names distinct, and the systems of each
    priority are the last ones added under their names, in the order they
    were added. *)
Definition sys_order_inv (w : World) (hist : list System) : Prop :=
  StronglySorted prio_le (systems w) /\ NoDup (map sys_name (systems w)) /\
  forall p, filter (prio_is p) (systems w) = filter (prio_is p) (latest_by_name hist).

Section SysAdd.
Variable env : Env.
Hypothesis Henv : env_quiet sys_quiet env.

Lemma init_step_quiet f s w2 w' :
  match env_init env (sys_id s) with
  | Some body => run env f body (log (EvInit s) w2)
  | None => Some w2
  end = Some w' ->
  systems w' = systems w2 /\
  exists l, trace w' = trace w2 ++ l /\ forall x, count_cleanups x l = 0.
Proof.
  destruct Henv as (Hi & Hu & Hc & Hh). intros H.
  destruct (env_init env (sys_id s)) as [body|] eqn:Ei.
  - apply (proj1 (proj2 (sys_quiet_ops env Henv f))) in H; [|exact (Hi _ _ Ei)].
    destruct H as [Hs (l & E & F)]. simpl in Hs, E. split; [exact Hs|].
    exists (EvInit s :: l). split; [rewrite E, <- app_assoc; reflexivity|].
    intros x. exact (count_cleanups_free x l F).
  - injection H as <-. split; [reflexivity|]. exists []. rewrite app_nil_r.
    split; [reflexivity | reflexivity].
Qed.

(** [addSystem(s)] with quiet callbacks and distinct names: the system of
    the same name, if any, is removed after its cleanup ran once, and [s]
    is inserted in priority order. *)
Lemma addSystem_quiet f w s w' :
  NoDup (map sys_name (systems w)) -> exec env f (OpAddSystem s) w = Some w' ->
  systems w' = insert_system s (filter (fun x => negb (name_is (sys_name s) x)) (systems w)) /\
  (forall x, In x (systems w) -> sys_name x = sys_name s ->
     count_cleanups x (new_events w w') =
     match env_cleanup env (sys_id x) with Some _ => 1 | None => 0 end).
Proof.
  intros Hnd H. exec_step H.
  destruct (find_index (name_is (sys_name s)) (systems w)) as [i|] eqn:Ef.
  - destruct (nth_error (systems w) i) as [ex|] eqn:Ex.
    2: { exfalso. destruct (find_index_some _ _ _ Ef) as [y Hy]. congruence. }
    cbv beta iota zeta in H.
    destruct (call_cleanup env f ex w) as [w0|] eqn:Ec; [|discriminate].
    destruct (call_cleanup_quiet env Henv f ex w w0 Ec) as [Hs0 (l0 & E0 & _ & C0)].
    destruct (init_step_quiet _ _ _ _ H) as [Hs2 (l2 & E2 & C2)].
    split.
    + rewrite Hs2. simpl. rewrite Hs0. f_equal. exact (splice_find_name _ _ _ Hnd Ef).
    + intros x Hx Hxn. rewrite (new_events_app w w' (l0 ++ l2)).
      * rewrite count_cleanups_app, C0, C2.
        assert (Hxe : x = ex).
        { apply (nodup_names_unique (systems w)); auto.
          - eapply nth_error_In; exact Ex.
          - pose proof (find_index_nth _ _ _ _ Ef Ex) as Hn. unfold name_is in Hn.
            apply String.eqb_eq in Hn. congruence. }
        subst x. destruct (System_eq_dec ex ex) as [_|Hne]; [|contradiction].
        now rewrite Nat.add_0_r.
      * rewrite E2. simpl. rewrite E0, <- app_assoc. reflexivity.
  - cbv beta iota zeta in H.
    destruct (init_step_quiet _ _ _ _ H) as [Hs2 (l2 & E2 & C2)]. split.
    + rewrite Hs2. simpl. f_equal. symmetry. now apply filter_find_None.
    + intros x Hx Hxn. exfalso. pose proof (find_index_None _ _ x Ef Hx) as Hf.
      unfold name_is in Hf. rewrite Hxn, String.eqb_refl in Hf. discriminate.
Qed.

Lemma exec_keeps_names f o w w' :
  NoDup (map sys_name (systems w)) -> exec env f o w = Some w' ->
  NoDup (map sys_name (systems w')).
Proof.
  intros Hnd H. destruct (sys_quiet o) eqn:Hq.
  - destruct (proj1 (sys_quiet_ops env Henv f) o w w' Hq H) as [Hs _]. now rewrite Hs.
  - destruct o as [ | e | | T | e T v | e T | e T | e | s | n | dt | | ev d | ev h | a h | k v];
      try discriminate Hq.
    + destruct (addSystem_quiet f w s w' Hnd H) as [Hs _]. rewrite Hs.
      now apply names_after_add.
    + exec_step H.
      destruct (find_index (name_is n) (systems w)) as [i|] eqn:Ef;
        [|injection H as <-; exact Hnd].
      destruct (nth_error (systems w) i) as [sys|]; [|injection H as <-; exact Hnd].
      destruct (call_cleanup env f sys w) as [w0|] eqn:Ec; [|discriminate].
      injection H as <-. simpl. destruct (call_cleanup_quiet env Henv f sys w w0 Ec) as [Hs0 _].
      rewrite Hs0, (splice_find_name n (systems w) i Hnd Ef). now apply NoDup_map_filter.
    + exec_step H. apply update_loop_quiet in H as [Hs _]; [|exact Henv]. now rewrite Hs.
    + exec_step H. split_runs. simpl. constructor.
Qed.

Lemma run_keeps_names fuel :
  forall ops w w', NoDup (map sys_name (systems w)) -> run env fuel ops w = Some w' ->
  NoDup (map sys_name (systems w')).
Proof.
  induction fuel as [|f IH]; intros ops w w' Hnd H; [discriminate|].
  destruct ops as [|o t]; simpl in H; [now injection H as <-|].
  destruct (exec env f o w) as [w1|] eqn:E; [|discriminate].
  exact (IH t w1 w' (exec_keeps_names f o w w1 Hnd E) H).
Qed.

(** With quiet callbacks, system names stay distinct. *)
Lemma names_reachable w : reachable env w -> NoDup (map sys_name (systems w)).
Proof. intros (fuel & ops & H). apply (run_keeps_names fuel ops init_world w); [constructor | exact H]. Qed.

Lemma add_step_inv f w s w' hist :
  sys_order_inv w hist -> exec env f (OpAddSystem s) w = Some w' ->
  sys_order_inv w' (hist ++ [s]).
Proof.
  intros (Hs & Hnd & Hp) H. destruct (addSystem_quiet f w s w' Hnd H) as [Hsys _].
  unfold sys_order_inv. rewrite Hsys. split; [apply sorted_insert, sorted_filter, Hs|].
  split; [now apply names_after_add|].
  intros p. rewrite filter_prio_insert by (apply sorted_filter, Hs).
  rewrite latest_by_name_snoc, filter_app. f_equal.
  rewrite filter_comm, Hp. apply filter_comm.
Qed.

Lemma adds_inv adds :
  forall fuel w hist w', sys_order_inv w hist ->
  run env fuel (map OpAddSystem adds) w = Some w' -> sys_order_inv w' (hist ++ adds).
Proof.
  induction adds as [|s t IH]; intros fuel w hist w' Hi H;
    destruct fuel as [|f]; simpl in H; try discriminate.
  - injection H as <-. now rewrite app_nil_r.
  - destruct (exec env f (OpAddSystem s) w) as [w1|] eqn:E; [|discriminate].
    replace (hist ++ s :: t) with ((hist ++ [s]) ++ t) by (now rewrite <- app_assoc).
    exact (IH f w1 (hist ++ [s]) w' (add_step_inv f w s w1 hist Hi E) H).
Qed.

End SysAdd.

(** ** C3 *)

(** C3 (corrected).  When no callback adds, removes or updates systems or
    destroys the world, after a sequence [adds] of [addSystem] calls on a
    fresh world the system list is sorted by ascending priority, holds the
    last system added under each name, and within each priority keeps them
    in the order they were added; [update(dt)] then invokes exactly the
    listed systems' updates, once each, in that order.  So with [A]
    (priority 200) and [B] (priority 100) added in either order, [B]'s
    update runs before [A]'s. *)
Theorem update_runs_in_priority_order :
  forall env fuel adds w,
  env_quiet sys_quiet env ->
  run env fuel (map OpAddSystem adds) init_world = Some w ->
  StronglySorted prio_le (systems w) /\
  NoDup (map sys_name (systems w)) /\
  (forall p, filter (prio_is p) (systems w) = filter (prio_is p) (latest_by_name adds)) /\
  (forall f dt w', exec env f (OpUpdate dt) w = Some w' ->
     systems w' = systems w /\ updates_of (new_events w w') = systems w).
Proof.
  intros env fuel adds w Henv H.
  assert (H0 : sys_order_inv init_world []) by (split; [constructor | split; [constructor | reflexivity]]).
  destruct (adds_inv env Henv adds fuel init_world [] w H0 H) as (Hs & Hnd & Hp).
  split; [exact Hs|]. split; [exact Hnd|]. split; [exact Hp|].
  intros f dt w' Hu. exec_step Hu.
  destruct (update_loop_quiet env Henv f dt 0 w w' Hu) as [Hsys (l & E & U)].
  split; [exact Hsys|]. rewrite (new_events_app w w' l E). exact U.
Qed.

Lemma update_runs_in_priority_order_witness :
  run env_idle 10 (map OpAddSystem [systemB; systemA]) init_world
    = Some (set_systems [systemB; systemA] init_world) /\
  updates_of (new_events (set_systems [systemB; systemA] init_world)
                (log (EvUpdate systemA 1) (log (EvUpdate systemB 1)
                   (set_systems [systemB; systemA] init_world))))
    = [systemB; systemA].
Proof.
  split; [reflexivity|].
  apply (proj2 (proj2 (proj2 (proj2 (update_runs_in_priority_order env_idle 10
           [systemB; systemA] (set_systems [systemB; systemA] init_world)
           (env_idle_quiet sys_quiet) eq_refl))) 4 1%Z _ eq_refl)).
Defined.

(** C3 counterexample: [A] (priority 200) and [B] (priority 100) are added;
    in the next frame [B]'s update adds [C] (priority 10) and [D]
    (priority 20).  The loop reads the live array, so after [B] it runs
    [D], then [B] again, then [A]: [D]'s update runs after [B]'s although
    its priority is lower, [B]'s runs twice and [C]'s does not run. *)
Lemma reentrant_add_breaks_update_order :
  exists w1 w2,
    run env_adding_update 10 (map OpAddSystem [systemB; systemA]) init_world = Some w1 /\
    exec env_adding_update 10 (OpUpdate 1) w1 = Some w2 /\
    updates_of (new_events w1 w2) = [systemB; systemD; systemB; systemA].
Proof. eexists. eexists. split; [vm_compute; reflexivity|]. split; vm_compute; reflexivity. Qed.

(** ** A removed system stays out *)

Definition no_update (s : System) (l : list Ev) : Prop := forall dt, ~ In (EvUpdate s dt) l.

(** If [old] is not in the system list, it does not come back and its
    update does not run. *)
Definition absent_kept (old : System) (w w' : World) : Prop :=
  ~ In old (systems w) ->
  ~ In old (systems w') /\ exists l, trace w' = trace w ++ l /\ no_update old l.

Lemma forallb_impl {A} (q q' : A -> bool) l :
  (forall x, q x = true -> q' x = true) -> forallb q l = true -> forallb q' l = true.
Proof.
  intros H Hl. apply forallb_forall. intros x Hx. apply H.
  exact (proj1 (forallb_forall q l) Hl x Hx).
Qed.

Lemma env_quiet_impl (q q' : Op -> bool) env :
  (forall o, q o = true -> q' o = true) -> env_quiet q env -> env_quiet q' env.
Proof.
  intros Hqq (Hi & Hu & Hc & Hh).
  repeat split; intros; eapply forallb_impl; eauto.
Qed.

Lemma sys_quiet_adds_not old o : sys_quiet o = true -> adds_not old o = true.
Proof. destruct o; simpl; try discriminate; reflexivity. Qed.

Create HintDb absq.

Section Absent.
Variable env : Env.
Variable old : System.
Hypothesis Henv : env_quiet (adds_not old) env.

Lemma absent_same w w' :
  systems w' = systems w -> trace w' = trace w -> absent_kept old w w'.
Proof.
  intros H1 H2 Hn. rewrite H1. split; [exact Hn|]. exists []. rewrite H2, app_nil_r.
  split; [reflexivity | intros dt []].
Qed.

Lemma absent_refl w : absent_kept old w w.
Proof. now apply absent_same. Qed.

Lemma absent_trans w1 w2 w3 :
  absent_kept old w1 w2 -> absent_kept old w2 w3 -> absent_kept old w1 w3.
Proof.
  intros H12 H23 Hn. destruct (H12 Hn) as [Hn2 (l1 & E1 & F1)].
  destruct (H23 Hn2) as [Hn3 (l2 & E2 & F2)]. split; [exact Hn3|].
  exists (l1 ++ l2). split; [rewrite E2, E1, <- app_assoc; reflexivity|].
  intros dt Hin. apply in_app_or in Hin as [Hin|Hin]; [exact (F1 dt Hin) | exact (F2 dt Hin)].
Qed.

Lemma absent_log ev w : (forall dt, ev <> EvUpdate old dt) -> absent_kept old w (log ev w).
Proof.
  intros Hev Hn. split; [exact Hn|]. exists [ev]. split; [reflexivity|].
  intros dt [Heq|[]]. exact (Hev dt Heq).
Qed.

Lemma absent_log_update s dt i w :
  nth_error (systems w) i = Some s -> absent_kept old w (log (EvUpdate s dt) w).
Proof.
  intros Hs Hn. refine (absent_log _ w _ Hn). intros dt' Heq.
  injection Heq as Hso _. subst s. apply Hn. eapply nth_error_In. exact Hs.
Qed.

Lemma absent_splice i w : absent_kept old w (set_systems (splice_out i (systems w)) w).
Proof.
  intros Hn. split; [|exists []; rewrite app_nil_r; split; [reflexivity | intros dt []]].
  simpl. intros Hin. apply Hn. unfold splice_out in Hin.
  apply in_app_or in Hin as [Hin|Hin].
  - rewrite <- (firstn_skipn i (systems w)). apply in_or_app. now left.
  - rewrite <- (firstn_skipn (S i) (systems w)). apply in_or_app. now right.
Qed.

Lemma absent_insert s w :
  s <> old -> absent_kept old w (set_systems (insert_system s (systems w)) w).
Proof.
  intros Hs Hn. split; [|exists []; rewrite app_nil_r; split; [reflexivity | intros dt []]].
  simpl. intros Hin. apply (Permutation_in _ (insert_system_perm s (systems w))) in Hin.
  destruct Hin as [Heq|Hin]; [exact (Hs Heq) | exact (Hn Hin)].
Qed.

Lemma absent_reset w : absent_kept old w (reset_world w).
Proof.
  intros Hn. split; [simpl; intros []|]. exists [EvWorldDestroyed].
  split; [reflexivity|]. intros dt [H|[]]. discriminate.
Qed.

Lemma absent_of_sys_kept w w' : sys_kept w w' -> absent_kept old w w'.
Proof.
  intros [Hs (l & E & F)] Hn. rewrite Hs. split; [exact Hn|]. exists l.
  split; [exact E|]. intros dt Hin. exact (F _ Hin I).
Qed.

#[local] Hint Resolve absent_refl absent_reset absent_splice : absq.
#[local] Hint Extern 1 (absent_kept _ _ (set_systems (insert_system _ _) _)) =>
  (apply absent_insert; assumption) : absq.
#[local] Hint Extern 1 (absent_kept _ _ (log (EvUpdate _ _) _)) =>
  (eapply absent_log_update; eassumption) : absq.
#[local] Hint Extern 2 (absent_kept _ _ (log _ _)) =>
  (apply absent_log; intros ? ?; discriminate) : absq.
#[local] Hint Extern 1 (absent_kept _ _ _) => (apply absent_same; reflexivity) : absq.
#[local] Hint Extern 1 (absent_kept _ _ _) =>
  (apply absent_of_sys_kept; apply sys_kept_component_ops) : absq.

Lemma absent_ops fuel :
  (forall o w w', adds_not old o = true -> exec env fuel o w = Some w' -> absent_kept old w w') /\
  (forall ops w w', forallb (adds_not old) ops = true -> run env fuel ops w = Some w' ->
                    absent_kept old w w') /\
  (forall s w w', call_cleanup env fuel s w = Some w' -> absent_kept old w w') /\
  (forall dt i w w', update_loop env fuel dt i w = Some w' -> absent_kept old w w') /\
  (forall i w w', cleanup_loop env fuel i w = Some w' -> absent_kept old w w') /\
  (forall a d i w w', emit_loop env fuel a d i w = Some w' -> absent_kept old w w').
Proof.
  destruct Henv as (Hi & Hu & Hc & Hh).
  induction fuel as [|f IH]; [repeat split; intros; discriminate|].
  destruct IH as (IHe & IHr & IHc & IHu & IHl & IHm).
  repeat match goal with |- _ /\ _ => split end;
    [intros o w w' Hq H; destruct o; simpl in H;
       try (simpl in Hq; destruct (System_eq_dec _ old); [discriminate|])
    |intros ops w w' Hq H; destruct ops as [|o ops]; simpl in H;
       [|simpl in Hq; apply andb_true_iff in Hq as [Hq1 Hq2]]
    |intros s w w' H; simpl in H
    |intros dt i w w' H; simpl in H
    |intros i w w' H; simpl in H
    |intros a d i w w' H; simpl in H];
    split_runs;
    repeat match goal with
    | H : exec env f _ _ = Some _ |- _ => apply IHe in H; [|assumption]
    | H : call_cleanup env f _ _ = Some _ |- _ => apply IHc in H
    | H : update_loop env f _ _ _ = Some _ |- _ => apply IHu in H
    | H : cleanup_loop env f _ _ = Some _ |- _ => apply IHl in H
    | H : emit_loop env f _ _ _ _ = Some _ |- _ => apply IHm in H
    | H : run env f _ _ = Some _ |- _ =>
        apply IHr in H; [|first [assumption | apply Hu | apply Hh | eapply Hi; eassumption
                                 | eapply Hc; eassumption]]
    end;
    chain_rel absent_trans ltac:(eauto with absq).
Qed.

End Absent.

(** ** C4 *)

(** C4 (code bug; the property holds in this case).  When no callback
    adds, removes or updates systems or destroys the world, at every
    reachable state: if [old] is in the
    system list and [addSystem(new)] is called with a different system of
    the same name, [old]'s cleanup runs exactly once (if [old] has one),
    [old] leaves the list and [new] enters it, and in any later sequence
    of operations that does not add [old] again (any number of
    [update(dt)] frames included) [old]'s update never runs. *)
Theorem replace_system_by_name :
  forall env f w old new w',
  env_quiet sys_quiet env -> reachable env w ->
  In old (systems w) -> sys_name new = sys_name old -> new <> old ->
  exec env f (OpAddSystem new) w = Some w' ->
  count_cleanups old (new_events w w') =
    match env_cleanup env (sys_id old) with Some _ => 1 | None => 0 end /\
  ~ In old (systems w') /\ In new (systems w') /\
  (forall fuel ops w'', forallb (adds_not old) ops = true -> run env fuel ops w' = Some w'' ->
     forall dt, ~ In (EvUpdate old dt) (new_events w' w'')).
Proof.
  intros env f w old new w' Henv Hr Hin Hname Hne H.
  pose proof (names_reachable env Henv w Hr) as Hnd.
  destruct (addSystem_quiet env Henv f w new w' Hnd H) as [Hsys Hcount].
  assert (Hout : ~ In old (systems w')).
  { rewrite Hsys. intros Hin'.
    apply (Permutation_in _ (insert_system_perm _ _)) in Hin' as [Heq|Hin'];
      [exact (Hne Heq)|].
    apply filter_In in Hin' as [_ Hf]. unfold name_is in Hf.
    rewrite Hname, String.eqb_refl in Hf. discriminate. }
  split; [apply Hcount; [exact Hin | symmetry; exact Hname]|].
  split; [exact Hout|]. split.
  - rewrite Hsys. apply (Permutation_in _ (Permutation_sym (insert_system_perm _ _))). now left.
  - intros fuel ops w'' Hops Hrun dt Hev.
    pose proof (env_quiet_impl _ _ env (sys_quiet_adds_not old) Henv) as Henv'.
    destruct (proj1 (proj2 (absent_ops env old Henv' fuel)) ops w' w'' Hops Hrun Hout)
      as [_ (l & E & F)].
    rewrite (new_events_app w' w'' l E) in Hev. exact (F dt Hev).
Qed.

Lemma env_empty_cleanups_quiet q : env_quiet q env_empty_cleanups.
Proof.
  repeat split; intros; simpl in *; try discriminate; try reflexivity.
  match goal with H : Some _ = Some _ |- _ => injection H as <- end. reflexivity.
Qed.

Lemma replace_system_by_name_witness :
  reachable env_empty_cleanups (set_systems [oldN] init_world) /\
  exec env_empty_cleanups 3 (OpAddSystem newN) (set_systems [oldN] init_world)
    = Some (set_systems [newN] (log (EvCleanup oldN) (set_systems [oldN] init_world))) /\
  count_cleanups oldN (new_events (set_systems [oldN] init_world)
    (set_systems [newN] (log (EvCleanup oldN) (set_systems [oldN] init_world)))) = 1.
Proof.
  assert (Hr : reachable env_empty_cleanups (set_systems [oldN] init_world))
    by (exists 3, [OpAddSystem oldN]; reflexivity).
  split; [exact Hr|]. split; [reflexivity|].
  exact (proj1 (replace_system_by_name env_empty_cleanups 3 (set_systems [oldN] init_world)
    oldN newN _ (env_empty_cleanups_quiet sys_quiet) Hr (or_introl eq_refl) eq_refl
    ltac:(discriminate) eq_refl)).
Defined.

(** C4 counterexample: [X] (priority 0) and [oldN] (priority 100) are
    added, then [newN] under [oldN]'s name.  [addSystem] finds [oldN] at
    index 1; its cleanup removes [X]; the [splice] at the stale index 1
    then removes nothing, so [oldN] stays in the list and its update runs
    in the next frame. *)
Lemma stale_index_keeps_replaced_system :
  exists w1 w2,
    run env_removing_cleanup 10 [OpAddSystem systemX; OpAddSystem oldN; OpAddSystem newN]
      init_world = Some w1 /\
    systems w1 = [oldN; newN] /\
    exec env_removing_cleanup 10 (OpUpdate 1) w1 = Some w2 /\
    updates_of (new_events w1 w2) = [oldN; newN].
Proof.
  eexists. eexists. split; [vm_compute; reflexivity|].
  split; [vm_compute; reflexivity|]. split; vm_compute; reflexivity.
Qed.

(** * Further properties of the runtime *)

(** ** The entity manager *)

Lemma existsb_nat_In x l : existsb (Nat.eqb x) l = true <-> In x l.
Proof.
  rewrite existsb_exists. split.
  - intros (y & Hy & E). apply Nat.eqb_eq in E. now subst.
  - intros Hx. exists x. split; [exact Hx | apply Nat.eqb_refl].
Qed.

Lemma eset_delete_absent e l : ~ In e l -> eset_delete e l = l.
Proof.
  unfold eset_delete. induction l as [|x t IH]; intros Hn; [reflexivity|]. simpl.
  destruct (Nat.eqb_spec e x) as [->|_]; [exfalso; apply Hn; now left|].
  simpl. f_equal. apply IH. intros Hin. apply Hn. now right.
Qed.

Lemma length_eset_delete e l :
  NoDup l -> In e l -> List.length (eset_delete e l) = List.length l - 1.
Proof.
  induction l as [|x t IH]; intros Hnd Hin; [contradiction|].
  apply NoDup_cons_iff in Hnd as [Hx Ht].
  unfold eset_delete in *. simpl. destruct (Nat.eqb_spec e x) as [->|Hne]; simpl.
  - fold (eset_delete x t). rewrite eset_delete_absent by exact Hx. lia.
  - destruct Hin as [->|Hin]; [contradiction|]. rewrite (IH Ht Hin).
    destruct t; [contradiction | simpl; lia].
Qed.

Lemma em_wf_create m :
  em_wf m ->
  em_exists (nextId m) m = false /\ em_wf (snd (em_create m)) /\
  em_exists (nextId m) (snd (em_create m)) = true /\
  em_count (snd (em_create m)) = S (em_count m).
Proof.
  intros [Hnd Hlt].
  assert (Hn : ~ In (nextId m) (entities m)) by (intros Hin; specialize (Hlt _ Hin); lia).
  assert (E : existsb (Nat.eqb (nextId m)) (entities m) = false).
  { destruct (existsb _ _) eqn:E; [|reflexivity]. apply existsb_nat_In in E. contradiction. }
  unfold em_exists, em_count, em_create, eset_add; simpl. rewrite E.
  split; [reflexivity|]. split; [split|split]; simpl.
  - apply NoDup_app; [exact Hnd | repeat constructor; auto |].
    intros x Hx [<-|[]]. contradiction.
  - intros x Hx. apply in_app_or in Hx as [Hx|[<-|[]]]; [specialize (Hlt _ Hx)|]; lia.
  - apply existsb_nat_In, in_or_app. right. now left.
  - rewrite length_app. simpl. lia.
Qed.

Lemma em_wf_destroy e m : em_wf m -> em_wf (em_destroy e m).
Proof.
  intros [Hnd Hlt]. split; simpl; [now apply NoDup_filter|].
  intros x Hx. apply filter_In in Hx as [Hx _]. now apply Hlt.
Qed.

Lemma em_wf_clear m : em_wf (em_clear m).
Proof. split; [constructor | intros x []]. Qed.

Definition em_kept (w w' : World) : Prop := em_wf (em w) -> em_wf (em w').

Lemma em_kept_same w w' : em w' = em w -> em_kept w w'.
Proof. intros E H. now rewrite E. Qed.

Lemma em_kept_refl w : em_kept w w.
Proof. now apply em_kept_same. Qed.

Lemma em_kept_trans w1 w2 w3 : em_kept w1 w2 -> em_kept w2 w3 -> em_kept w1 w3.
Proof. unfold em_kept. auto. Qed.

Lemma em_kept_create w : em_kept w (set_em (snd (em_create (em w))) w).
Proof. intros H. exact (proj1 (proj2 (em_wf_create _ H))). Qed.

Lemma em_kept_destroy e w : em_kept w (set_em (em_destroy e (em w)) w).
Proof. intros H. now apply em_wf_destroy. Qed.

Lemma em_kept_clear w : em_kept w (set_em (em_clear (em w)) w).
Proof. intros _. apply em_wf_clear. Qed.

Lemma em_kept_reset w : em_kept w (reset_world w).
Proof. intros _. apply em_wf_clear. Qed.

Lemma em_component_ops :
  (forall w T, em (registerComponent w T) = em w) /\
  (forall w e T v, em (addComponent w e T v) = em w) /\
  (forall w e T, em (snd (getComponent w e T)) = em w) /\
  (forall w e T, em (removeComponent w e T) = em w) /\
  (forall w ev h, em (fst (on w ev h)) = em w).
Proof.
  repeat match goal with |- _ /\ _ => split end; intros.
  - unfold registerComponent. now destruct (smap_has _ _).
  - unfold addComponent, getStorage. destruct (negb _); [reflexivity|].
    now destruct (smap_get _ _).
  - unfold getComponent, getStorage. now destruct (smap_get _ _).
  - unfold removeComponent. now destruct (smap_get _ _).
  - unfold on. now destruct (smap_get _ _).
Qed.

Create HintDb emq.
#[local] Hint Resolve em_kept_refl em_kept_create em_kept_destroy em_kept_clear
  em_kept_reset : emq.
#[local] Hint Extern 1 (em_kept _ _) => (apply em_kept_same; reflexivity) : emq.
#[local] Hint Extern 1 (em_kept _ _) => (apply em_kept_same; apply em_component_ops) : emq.

Lemma em_all_ops env fuel : all_ops env fuel em_kept.
Proof.
  unfold all_ops. induction fuel as [|f IH]; [repeat split; intros; discriminate|].
  destruct IH as (IHe & IHr & IHc & IHu & IHl & IHm).
  repeat match goal with |- _ /\ _ => split end;
    [intros o w w' H; destruct o; simpl in H
    |intros ops w w' H; destruct ops; simpl in H
    |intros s w w' H; simpl in H
    |intros dt i w w' H; simpl in H
    |intros i w w' H; simpl in H
    |intros a d i w w' H; simpl in H];
    split_runs;
    repeat match goal with
    | H : exec env f _ _ = Some _ |- _ => apply IHe in H
    | H : run env f _ _ = Some _ |- _ => apply IHr in H
    | H : call_cleanup env f _ _ = Some _ |- _ => apply IHc in H
    | H : update_loop env f _ _ _ = Some _ |- _ => apply IHu in H
    | H : cleanup_loop env f _ _ = Some _ |- _ => apply IHl in H
    | H : emit_loop env f _ _ _ _ = Some _ |- _ => apply IHm in H
    end;
    chain_rel em_kept_trans ltac:(eauto with emq).
Qed.

Lemma em_wf_reachable env w : reachable env w -> em_wf (em w).
Proof.
  intros (fuel & ops & H). apply (proj1 (proj2 (em_all_ops env fuel)) ops init_world w H).
  exact (em_wf_clear em_init).
Qed.

(** ** Storages are maps *)

Lemma storage_in_has e s : In e (storage_entities s) -> storage_has e s = true.
Proof.
  unfold storage_has, storage_entities. induction s as [|[e' v'] t IH]; simpl; [contradiction|].
  destruct (Nat.eqb_spec e e') as [->|Hne]; [reflexivity|].
  intros [->|Hin]; [contradiction | exact (IH Hin)].
Qed.

(** [Map.prototype.set]: an existing key keeps its position, a new key is
    appended. *)
Lemma storage_entities_set e v s :
  storage_entities (storage_set e v s) =
  if storage_has e s then storage_entities s else storage_entities s ++ [e].
Proof.
  unfold storage_has, storage_entities. induction s as [|[e' v'] t IH]; simpl; [reflexivity|].
  destruct (Nat.eqb_spec e e') as [->|Hne]; simpl; [reflexivity|].
  rewrite IH. now destruct (storage_get e t).
Qed.

Lemma storage_entities_remove e s :
  storage_entities (storage_remove e s) = eset_delete e (storage_entities s).
Proof.
  unfold storage_entities, storage_remove, eset_delete.
  induction s as [|[e' v'] t IH]; simpl; [reflexivity|].
  destruct (Nat.eqb e e'); simpl; now rewrite IH.
Qed.

Lemma storage_get_remove_neq e e' s :
  e' <> e -> storage_get e' (storage_remove e s) = storage_get e' s.
Proof.
  intros Hne. induction s as [|[x v] t IH]; simpl; [reflexivity|].
  destruct (Nat.eqb_spec e x) as [->|Hx]; simpl.
  - destruct (Nat.eqb_spec e' x); [contradiction | exact IH].
  - destruct (Nat.eqb e' x); [reflexivity | exact IH].
Qed.

Lemma storage_has_set_neq e e' v s :
  e' <> e -> storage_has e' (storage_set e v s) = storage_has e' s.
Proof. intros Hne. unfold storage_has. now rewrite storage_get_set_neq. Qed.

Lemma storage_has_remove_neq e e' s :
  e' <> e -> storage_has e' (storage_remove e s) = storage_has e' s.
Proof. intros Hne. unfold storage_has. now rewrite storage_get_remove_neq. Qed.

Lemma NoDup_storage_set e v s :
  NoDup (storage_entities s) -> NoDup (storage_entities (storage_set e v s)).
Proof.
  intros Hnd. rewrite storage_entities_set. destruct (storage_has e s) eqn:E; [exact Hnd|].
  apply NoDup_app; [exact Hnd | repeat constructor; auto |].
  intros x Hx [<-|[]]. apply storage_in_has in Hx. congruence.
Qed.

Lemma NoDup_storage_remove e s :
  NoDup (storage_entities s) -> NoDup (storage_entities (storage_remove e s)).
Proof. intros Hnd. rewrite storage_entities_remove. now apply NoDup_filter. Qed.

Lemma stor_wf_smap_set (cs : list (string * ComponentStorage)) n x :
  (forall k s, smap_get k cs = Some s -> NoDup (storage_entities s)) ->
  NoDup (storage_entities x) ->
  forall k s, smap_get k (smap_set n x cs) = Some s -> NoDup (storage_entities s).
Proof.
  intros Hcs Hx k s Hk. destruct (string_dec k n) as [->|Hne].
  - rewrite smap_get_set_eq in Hk. now injection Hk as <-.
  - rewrite smap_get_set_neq in Hk by exact Hne. exact (Hcs _ _ Hk).
Qed.

Definition stor_kept (w w' : World) : Prop := storages_wf w -> storages_wf w'.

Lemma stor_primitives :
  (forall m w, stor_kept w (set_em m w)) /\
  (forall l w, stor_kept w (set_systems l w)) /\
  (forall ev w, stor_kept w (log ev w)) /\
  (forall w, stor_kept w (reset_world w)) /\
  (forall w T, stor_kept w (registerComponent w T)) /\
  (forall w e T v, stor_kept w (addComponent w e T v)) /\
  (forall w e T, stor_kept w (snd (getComponent w e T))) /\
  (forall w e T, stor_kept w (removeComponent w e T)) /\
  (forall w e, stor_kept w (removeAllComponents w e)) /\
  (forall w ev h, stor_kept w (fst (on w ev h))) /\
  (forall w a h, stor_kept w (unsubscribe w a h)) /\
  (forall w k v, stor_kept w (setResource w k v)).
Proof.
  unfold stor_kept.
  repeat match goal with |- _ /\ _ => split end; intros; try exact H.
  - intros k s Hk. discriminate.
  - unfold registerComponent. destruct (smap_has _ _); [exact H|].
    unfold storages_wf; simpl. apply stor_wf_smap_set; [exact H | constructor].
  - unfold addComponent, getStorage. destruct (negb _); [exact H|].
    destruct (smap_get (ct_name T) (componentStorages w)) as [s|] eqn:E;
      unfold storages_wf; simpl; apply stor_wf_smap_set.
    + exact H.
    + apply NoDup_storage_set. exact (H _ _ E).
    + apply stor_wf_smap_set; [exact H | constructor].
    + repeat constructor. intros [].
  - unfold getComponent, getStorage. destruct (smap_get _ _); [exact H|].
    unfold storages_wf; simpl. apply stor_wf_smap_set; [exact H | constructor].
  - unfold removeComponent. destruct (smap_get (ct_name T) (componentStorages w)) as [s|] eqn:E;
      [|exact H].
    unfold storages_wf; simpl. apply stor_wf_smap_set; [exact H|].
    apply NoDup_storage_remove. exact (H _ _ E).
  - unfold storages_wf; simpl. intros k s Hk. rewrite smap_get_map in Hk.
    destruct (smap_get k (componentStorages w)) as [s0|] eqn:E; simpl in Hk; [|discriminate].
    injection Hk as <-. apply NoDup_storage_remove. exact (H _ _ E).
  - unfold on. destruct (smap_get _ _); exact H.
Qed.

Lemma stor_reachable env w : reachable env w -> storages_wf w.
Proof.
  intros (fuel & ops & H).
  destruct stor_primitives as (P1 & P2 & P3 & P4 & P5 & P6 & P7 & P8 & P9 & P10 & P11 & P12).
  refine (proj1 (proj2 (preserved_by_all_ops stor_kept _ _ P1 P2 P3 P4 P5 P6 P7 P8 P9 P10
                          P11 P12 env fuel)) ops init_world w H _).
  - intros w0 H0. exact H0.
  - intros w1 w2 w3 H12 H23 H1. auto.
  - intros k s Hk. discriminate.
Qed.

(** ** Entity-manager extras *)

(** X8. [entities.create()] never returns an id that is alive, also after
    [clear()] reset the counter: at every reachable state the new id was
    not alive before, is alive after, and the count grows by one. *)
Theorem create_returns_fresh_id :
  forall env w, reachable env w ->
  em_exists (fst (em_create (em w))) (em w) = false /\
  em_exists (fst (em_create (em w))) (snd (em_create (em w))) = true /\
  em_count (snd (em_create (em w))) = S (em_count (em w)).
Proof.
  intros env w Hr. destruct (em_wf_create (em w) (em_wf_reachable env w Hr)) as (H1 & _ & H3 & H4).
  split; [exact H1|]. split; [exact H3 | exact H4].
Qed.

Lemma create_returns_fresh_id_witness :
  reachable env_idle (set_em (em_clear (em init_world)) init_world) /\
  em_exists 0 (em_init) = false.
Proof.
  assert (Hr : reachable env_idle (set_em (em_clear (em init_world)) init_world))
    by (exists 3, [OpClearEntities]; reflexivity).
  split; [exact Hr|].
  exact (proj1 (create_returns_fresh_id env_idle _ Hr)).
Defined.

(** X9. [entities.destroy(e)]: on an id that is not alive it changes nothing;
    at every reachable state, on an alive id it lowers the count by one and
    leaves every other entity as alive or dead as it was. *)
Theorem destroy_entity_count :
  forall env w e, reachable env w ->
  (em_exists e (em w) = false -> em_destroy e (em w) = em w) /\
  (em_exists e (em w) = true -> em_count (em_destroy e (em w)) = em_count (em w) - 1) /\
  (forall x, x <> e -> em_exists x (em_destroy e (em w)) = em_exists x (em w)).
Proof.
  intros env w e Hr. destruct (em_wf_reachable env w Hr) as [Hnd _].
  split; [|split].
  - intros He. unfold em_destroy. rewrite eset_delete_absent.
    + now destruct (em w).
    + intros Hin. apply existsb_nat_In in Hin. unfold em_exists in He. congruence.
  - intros He. unfold em_count, em_destroy; simpl.
    apply length_eset_delete; [exact Hnd|]. now apply existsb_nat_In.
  - intros x Hx. unfold em_exists, em_destroy; simpl.
    destruct (existsb (Nat.eqb x) (entities (em w))) eqn:E.
    + apply existsb_nat_In. apply existsb_nat_In in E. apply filter_In. split; [exact E|].
      destruct (Nat.eqb_spec e x); [congruence | reflexivity].
    + destruct (existsb (Nat.eqb x) (eset_delete e (entities (em w)))) eqn:E'; [|reflexivity].
      apply existsb_nat_In in E'. apply filter_In in E' as [E' _].
      apply existsb_nat_In in E'. congruence.
Qed.

Lemma destroy_entity_count_witness :
  reachable env_idle (set_em (snd (em_create em_init)) init_world) /\
  em_count (em_destroy 0 (em (set_em (snd (em_create em_init)) init_world))) = 0.
Proof.
  assert (Hr : reachable env_idle (set_em (snd (em_create em_init)) init_world))
    by (exists 3, [OpCreate]; reflexivity).
  split; [exact Hr|].
  exact (proj1 (proj2 (destroy_entity_count env_idle _ 0 Hr)) eq_refl).
Defined.

(** ** Queries extras *)

(** X6. [world.query(...)] never returns an entity twice, at every reachable
    state; for a non-empty list of types it returns exactly the entities
    that hold all of them. *)
Theorem query_no_duplicates :
  forall env w cs, reachable env w ->
  NoDup (query w cs) /\
  (cs <> [] -> forall x, In x (query w cs) <-> forallb (fun c => hasComponent w x c) cs = true).
Proof.
  intros env w cs Hr. split; [|intros Hne x; exact (In_query w cs x Hne)].
  destruct cs as [|c cs']; simpl.
  - exact (proj1 (em_wf_reachable env w Hr)).
  - destruct (smap_get (ct_name c) (componentStorages w)) as [s|] eqn:E; [|constructor].
    apply NoDup_filter. exact (stor_reachable env w Hr _ _ E).
Qed.

Lemma query_no_duplicates_witness :
  reachable env_idle init_world /\ NoDup (query init_world [defineComponent "Position" 0]).
Proof.
  split; [apply init_reachable|].
  exact (proj1 (query_no_duplicates env_idle init_world _ (init_reachable env_idle))).
Defined.

(** X7. The fluent [query().with(...).without(...).execute(world)] returns,
    without duplicates and in the order of [getAll()], exactly the alive
    entities that hold every [with] type and none of the [without] types. *)
Theorem execute_spec :
  forall env w q, reachable env w ->
  NoDup (execute q w) /\
  (forall x, In x (execute q w) <->
     em_exists x (em w) = true /\
     forallb (fun c => hasComponent w x c) (withComponents q) = true /\
     forallb (fun c => negb (hasComponent w x c)) (withoutComponents q) = true).
Proof.
  intros env w q Hr. split.
  - unfold execute. apply NoDup_filter. exact (proj1 (em_wf_reachable env w Hr)).
  - intros x. unfold execute, em_exists. rewrite filter_In, existsb_nat_In.
    destruct (forallb _ (withComponents q)), (forallb _ (withoutComponents q)); simpl;
      intuition discriminate.
Qed.

Lemma execute_spec_witness :
  reachable env_idle init_world /\ NoDup (execute query_builder init_world).
Proof.
  split; [apply init_reachable|].
  exact (proj1 (execute_spec env_idle init_world query_builder (init_reachable env_idle))).
Defined.

(** ** Component operations extras *)

Lemma forallb_pointwise {A} (f g : A -> bool) l :
  (forall x, f x = g x) -> forallb f l = forallb g l.
Proof. intros H. induction l as [|x t IH]; simpl; [reflexivity|]. now rewrite H, IH. Qed.

(** The entities a query over [c :: cs] starts from. *)
Definition candidates (w : World) (c : ComponentType) : list Entity :=
  match smap_get (ct_name c) (componentStorages w) with
  | Some s => storage_entities s
  | None => []
  end.

Lemma query_cons_candidates w c cs :
  query w (c :: cs) =
  filter (fun e => forallb (fun c0 => hasComponent w e c0) (c :: cs)) (candidates w c).
Proof. unfold query, candidates. destruct (smap_get _ _); reflexivity. Qed.

Lemma query_ext w w' :
  em w' = em w -> (forall x c, hasComponent w' x c = hasComponent w x c) ->
  (forall c, candidates w' c = candidates w c) ->
  forall cs, query w' cs = query w cs.
Proof.
  intros Hem Hhas Hc [|c cs]; [simpl; now rewrite Hem|].
  rewrite !query_cons_candidates, Hc. apply filter_ext. intros x.
  apply forallb_pointwise. intros c0. apply Hhas.
Qed.

Lemma execute_ext w w' :
  em w' = em w -> (forall x c, hasComponent w' x c = hasComponent w x c) ->
  forall q, execute q w' = execute q w.
Proof.
  intros Hem Hhas q. unfold execute. rewrite Hem. apply filter_ext. intros x.
  rewrite (forallb_pointwise (fun c => hasComponent w' x c) (fun c => hasComponent w x c))
    by (intros; apply Hhas).
  now rewrite (forallb_pointwise (fun c => negb (hasComponent w' x c))
                 (fun c => negb (hasComponent w x c))) by (intros; now rewrite Hhas).
Qed.

(** Creating an empty storage for a type that has none (the shared step of
    [getStorage] and [registerComponent]) is invisible to every read. *)
Lemma empty_storage_unobservable w T :
  smap_get (ct_name T) (componentStorages w) = None ->
  let w1 := mkWorld (em w) (smap_set (ct_name T) [] (componentStorages w))
              (registeredComponents w ++ [T]) (systems w)
              (eventHandlers w) (handlerSets w) (resources w) (trace w) in
  (forall e' T', component_of w1 e' T' = component_of w e' T') /\
  (forall e' T', hasComponent w1 e' T' = hasComponent w e' T') /\
  (forall cs, query w1 cs = query w cs) /\
  (forall q, execute q w1 = execute q w).
Proof.
  intros E w1.
  assert (Hhas : forall e' T', hasComponent w1 e' T' = hasComponent w e' T').
  { intros e' T'. unfold hasComponent, w1; simpl.
    destruct (string_dec (ct_name T') (ct_name T)) as [Hn|Hn].
    - rewrite Hn, smap_get_set_eq, E. reflexivity.
    - now rewrite smap_get_set_neq. }
  split; [|split; [exact Hhas|split]].
  - intros e' T'. unfold component_of, w1; simpl.
    destruct (string_dec (ct_name T') (ct_name T)) as [Hn|Hn].
    + rewrite Hn, smap_get_set_eq, E. reflexivity.
    + now rewrite smap_get_set_neq.
  - apply query_ext; [reflexivity | exact Hhas|]. intros c. unfold candidates, w1; simpl.
    destruct (string_dec (ct_name c) (ct_name T)) as [Hn|Hn].
    + rewrite Hn, smap_get_set_eq, E. reflexivity.
    + now rewrite smap_get_set_neq.
  - apply execute_ext; [reflexivity | exact Hhas].
Qed.

(** X4. [getComponent(e, T)] returns the stored record and, although it may
    create [T]'s storage, no read can tell: every stored record, every
    [hasComponent], every [query] and every fluent query are unchanged. *)
Theorem getComponent_unobservable :
  forall w e T,
  fst (getComponent w e T) = component_of w e T /\
  (forall e' T', component_of (snd (getComponent w e T)) e' T' = component_of w e' T') /\
  (forall e' T', hasComponent (snd (getComponent w e T)) e' T' = hasComponent w e' T') /\
  (forall cs, query (snd (getComponent w e T)) cs = query w cs) /\
  (forall q, execute q (snd (getComponent w e T)) = execute q w).
Proof.
  intros w e T. split; [apply getComponent_storage|].
  unfold getComponent, getStorage.
  destruct (smap_get (ct_name T) (componentStorages w)) as [s|] eqn:E; simpl.
  - repeat match goal with |- _ /\ _ => split end; reflexivity.
  - exact (empty_storage_unobservable w T E).
Qed.

(** X2. [registerComponent(T)] makes [T]'s storage exist; on a type that has
    one it changes nothing (the data is kept), so registering twice is
    registering once; it never changes a stored record or a query. *)
Theorem registerComponent_spec :
  forall w T,
  has_storage (registerComponent w T) T = true /\
  (has_storage w T = true -> registerComponent w T = w) /\
  registerComponent (registerComponent w T) T = registerComponent w T /\
  (forall e T', component_of (registerComponent w T) e T' = component_of w e T') /\
  (forall cs, query (registerComponent w T) cs = query w cs).
Proof.
  intros w T.
  assert (Hid : forall v, has_storage v T = true -> registerComponent v T = v).
  { intros v Hv. unfold registerComponent. unfold has_storage in Hv. now rewrite Hv. }
  destruct (has_storage w T) eqn:E.
  - rewrite (Hid w E). repeat match goal with |- _ /\ _ => split end; auto.
  - unfold has_storage, smap_has in E.
    destruct (smap_get (ct_name T) (componentStorages w)) eqn:E'; [discriminate|].
    destruct (empty_storage_unobservable w T E') as (H1 & _ & H3 & _).
    assert (Hs : has_storage (registerComponent w T) T = true).
    { unfold registerComponent, smap_has. rewrite E'. unfold has_storage, smap_has; simpl.
      now rewrite smap_get_set_eq. }
    split; [exact Hs|]. split; [discriminate|]. split; [exact (Hid _ Hs)|].
    unfold registerComponent, smap_has. rewrite E'. split; [exact H1 | exact H3].
Qed.

(** X1. [removeComponent(e, T)]: afterwards [e] does not have [T]; every other
    record is unchanged; the set of types with a storage is unchanged, and
    on a type without a storage nothing happens at all. *)
Theorem removeComponent_spec :
  forall w e T,
  hasComponent (removeComponent w e T) e T = false /\
  (forall e' T', ct_name T' <> ct_name T \/ e' <> e ->
     component_of (removeComponent w e T) e' T' = component_of w e' T') /\
  (forall T', has_storage (removeComponent w e T) T' = has_storage w T') /\
  (has_storage w T = false -> removeComponent w e T = w).
Proof.
  intros w e T. unfold removeComponent.
  destruct (smap_get (ct_name T) (componentStorages w)) as [s|] eqn:E.
  - split; [|split; [|split]].
    + unfold hasComponent, storage_has; simpl. now rewrite smap_get_set_eq, storage_get_remove.
    + intros e' T' Hd. unfold component_of; simpl.
      destruct (string_dec (ct_name T') (ct_name T)) as [Hn|Hn].
      * rewrite Hn, smap_get_set_eq, E. destruct Hd as [Hd|Hd]; [contradiction|].
        now apply storage_get_remove_neq.
      * now rewrite smap_get_set_neq.
    + intros T'. unfold has_storage, smap_has; simpl.
      destruct (string_dec (ct_name T') (ct_name T)) as [Hn|Hn].
      * now rewrite Hn, smap_get_set_eq, E.
      * now rewrite smap_get_set_neq.
    + unfold has_storage, smap_has. rewrite E. discriminate.
  - split; [unfold hasComponent; now rewrite E|]. split; [reflexivity|].
    split; reflexivity.
Qed.

(** X3. [removeAllComponents(e)]: afterwards [e] has no component; every other
    entity's records, the set of types with a storage and the alive
    entities are unchanged; every non-empty [query] returns what it
    returned before, without [e]. *)
Theorem removeAllComponents_spec :
  forall w e,
  (forall T, hasComponent (removeAllComponents w e) e T = false) /\
  (forall e' T, e' <> e -> component_of (removeAllComponents w e) e' T = component_of w e' T) /\
  (forall T, has_storage (removeAllComponents w e) T = has_storage w T) /\
  em (removeAllComponents w e) = em w /\
  (forall cs, cs <> [] -> query (removeAllComponents w e) cs = eset_delete e (query w cs)).
Proof.
  intros w e.
  assert (Hhas : forall x c, x <> e -> hasComponent (removeAllComponents w e) x c = hasComponent w x c).
  { intros x c Hx. unfold hasComponent, removeAllComponents; simpl. rewrite smap_get_map.
    destruct (smap_get _ _); simpl; [now apply storage_has_remove_neq | reflexivity]. }
  split; [|split; [|split; [|split]]].
  - intros T. unfold hasComponent, removeAllComponents; simpl. rewrite smap_get_map.
    destruct (smap_get _ _); simpl; [unfold storage_has; now rewrite storage_get_remove | reflexivity].
  - intros e' T Hne. unfold component_of, removeAllComponents; simpl. rewrite smap_get_map.
    destruct (smap_get _ _); simpl; [now apply storage_get_remove_neq | reflexivity].
  - intros T. unfold has_storage, smap_has, removeAllComponents; simpl. rewrite smap_get_map.
    now destruct (smap_get _ _).
  - reflexivity.
  - intros [|c cs] Hne; [contradiction|]. rewrite !query_cons_candidates.
    assert (Hc : candidates (removeAllComponents w e) c = eset_delete e (candidates w c)).
    { unfold candidates, removeAllComponents; simpl. rewrite smap_get_map.
      destruct (smap_get _ _); simpl; [apply storage_entities_remove | reflexivity]. }
    rewrite Hc. unfold eset_delete at 1. rewrite (filter_ext_in _
      (fun x => forallb (fun c0 => hasComponent w x c0) (c :: cs))).
    + unfold eset_delete. apply filter_comm.
    + intros x Hx. apply filter_In in Hx as [_ Hx]. apply forallb_pointwise. intros c0.
      apply Hhas. intros ->. rewrite Nat.eqb_refl in Hx. discriminate.
Qed.

(** X5. Re-adding a component [e] already has (as a per-frame system does to
    update it) only replaces the record in place: every [hasComponent],
    every [query] (its order included) and every fluent query are
    unchanged. *)
Theorem addComponent_existing_keeps_queries :
  forall w e T v, hasComponent w e T = true ->
  (forall e' T', hasComponent (addComponent w e T v) e' T' = hasComponent w e' T') /\
  (forall cs, query (addComponent w e T v) cs = query w cs) /\
  (forall q, execute q (addComponent w e T v) = execute q w).
Proof.
  intros w e T v Hh. unfold addComponent.
  destruct (negb (em_exists e (em w))).
  { repeat match goal with |- _ /\ _ => split end; reflexivity. }
  unfold hasComponent in Hh.
  destruct (smap_get (ct_name T) (componentStorages w)) as [s|] eqn:E; [|discriminate].
  unfold getStorage. rewrite E. cbv beta iota zeta.
  assert (Hhas : forall x c,
    hasComponent (set_storages (smap_set (ct_name T) (storage_set e v s) (componentStorages w)) w) x c
    = hasComponent w x c).
  { intros x c. unfold hasComponent; simpl.
    destruct (string_dec (ct_name c) (ct_name T)) as [Hn|Hn].
    - rewrite Hn, smap_get_set_eq, E. destruct (Nat.eq_dec x e) as [->|Hx].
      + unfold storage_has in *. now rewrite storage_get_set_eq.
      + now apply storage_has_set_neq.
    - now rewrite smap_get_set_neq. }
  split; [exact Hhas|]. split.
  - apply query_ext; [reflexivity | exact Hhas|]. intros c. unfold candidates; simpl.
    destruct (string_dec (ct_name c) (ct_name T)) as [Hn|Hn].
    + rewrite Hn, smap_get_set_eq, E, storage_entities_set, Hh. reflexivity.
    + now rewrite smap_get_set_neq.
  - apply execute_ext; [reflexivity | exact Hhas].
Qed.

Lemma addComponent_existing_keeps_queries_witness :
  let w := addComponent (set_em (snd (em_create em_init)) init_world) 0
             (defineComponent "Position" 0) 5 in
  hasComponent w 0 (defineComponent "Position" 0) = true /\
  query (addComponent w 0 (defineComponent "Position" 0) 7) [defineComponent "Position" 0] =
  query w [defineComponent "Position" 0].
Proof.
  intros w. split; [reflexivity|].
  exact (proj1 (proj2 (addComponent_existing_keeps_queries w 0 (defineComponent "Position" 0) 7
                         eq_refl)) [defineComponent "Position" 0]).
Defined.

(** ** Resources *)

Lemma smap_set_set {X} (k : string) (x y : X) m : smap_set k y (smap_set k x m) = smap_set k y m.
Proof.
  induction m as [|[k' x'] t IH]; simpl; [now rewrite String.eqb_refl|].
  destruct (String.eqb_spec k k') as [->|Hne]; simpl.
  - now rewrite String.eqb_refl.
  - destruct (String.eqb_spec k k'); [contradiction|]. now rewrite IH.
Qed.

(** X10. [setResource(k, v)] then [getResource(k)] returns [v]; the other
    resources are unchanged; setting the same key twice is setting it once
    with the last value. *)
Theorem resource_roundtrip :
  forall w k v v',
  getResource (setResource w k v) k = Some v /\
  (forall k', k' <> k -> getResource (setResource w k v) k' = getResource w k') /\
  setResource (setResource w k v) k v' = setResource w k v'.
Proof.
  intros w k v v'. split; [apply smap_get_set_eq|]. split.
  - intros k' Hne. now apply smap_get_set_neq.
  - unfold setResource, set_resources; simpl. now rewrite smap_set_set.
Qed.

(** ** System-list extras *)

Lemma find_name_unique l n x :
  NoDup (map sys_name l) -> In x l -> sys_name x = n -> find (name_is n) l = Some x.
Proof.
  intros Hnd Hx Hn. destruct (find (name_is n) l) as [y|] eqn:E.
  - apply find_some in E as [Hy Hyn]. unfold name_is in Hyn. apply String.eqb_eq in Hyn.
    f_equal. apply (nodup_names_unique l); auto. congruence.
  - pose proof (find_none _ _ E x Hx) as Hf. unfold name_is in Hf.
    rewrite Hn, String.eqb_refl in Hf. discriminate.
Qed.

Lemma find_filter_neg n l : find (name_is n) (filter (fun x => negb (name_is n x)) l) = None.
Proof.
  induction l as [|x t IH]; [reflexivity|]. simpl.
  destruct (name_is n x) eqn:E; simpl; [exact IH|]. now rewrite E.
Qed.

Lemma find_index_find_None {A} (p : A -> bool) l : find_index p l = None -> find p l = None.
Proof.
  induction l as [|x t IH]; simpl; [reflexivity|].
  destruct (p x); [discriminate|]. destruct (find_index p t); [discriminate|]. auto.
Qed.

Lemma find_find_index_None {A} (p : A -> bool) l : find p l = None -> find_index p l = None.
Proof.
  induction l as [|x t IH]; simpl; [reflexivity|].
  destruct (p x); [discriminate|]. intros H. now rewrite (IH H).
Qed.

Lemma new_events_refl w : new_events w w = [].
Proof. apply new_events_app. now rewrite app_nil_r. Qed.

(** X11. When no callback adds, removes or updates systems or destroys the
    world, at every reachable state: after [addSystem(s)], [getSystem] of
    [s]'s name returns [s], and [getSystem] of every other name returns
    what it returned before. *)
Theorem getSystem_after_addSystem :
  forall env f w s w',
  env_quiet sys_quiet env -> reachable env w -> exec env f (OpAddSystem s) w = Some w' ->
  getSystem w' (sys_name s) = Some s /\
  (forall n, n <> sys_name s -> getSystem w' n = getSystem w n).
Proof.
  intros env f w s w' Henv Hr H.
  pose proof (names_reachable env Henv w Hr) as Hnd.
  destruct (addSystem_quiet env Henv f w s w' Hnd H) as [Hsys _].
  assert (Hnd' : NoDup (map sys_name (systems w'))) by (rewrite Hsys; now apply names_after_add).
  split.
  - unfold getSystem. apply find_name_unique; [exact Hnd'| |reflexivity].
    rewrite Hsys. apply (Permutation_in _ (Permutation_sym (insert_system_perm _ _))). now left.
  - intros n Hn. unfold getSystem. destruct (find (name_is n) (systems w)) as [x|] eqn:E.
    + apply find_some in E as [Hx Hxn]. unfold name_is in Hxn. apply String.eqb_eq in Hxn.
      apply find_name_unique; [exact Hnd'| |exact Hxn].
      rewrite Hsys. apply (Permutation_in _ (Permutation_sym (insert_system_perm _ _))). right.
      apply filter_In. split; [exact Hx|]. unfold name_is.
      destruct (String.eqb_spec (sys_name x) (sys_name s)); [congruence | reflexivity].
    + destruct (find (name_is n) (systems w')) as [y|] eqn:E'; [|reflexivity].
      apply find_some in E' as [Hy Hyn]. rewrite Hsys in Hy.
      apply (Permutation_in _ (insert_system_perm _ _)) in Hy as [<-|Hy].
      * unfold name_is in Hyn. apply String.eqb_eq in Hyn. congruence.
      * apply filter_In in Hy as [Hy _]. rewrite (find_none _ _ E y Hy) in Hyn. discriminate.
Qed.

Lemma getSystem_after_addSystem_witness :
  env_quiet sys_quiet env_idle /\ reachable env_idle init_world /\
  getSystem (set_systems [systemA] init_world) "a" = Some systemA.
Proof.
  split; [apply env_idle_quiet|]. split; [apply init_reachable|].
  exact (proj1 (getSystem_after_addSystem env_idle 3 init_world systemA
                  (set_systems [systemA] init_world) (env_idle_quiet _)
                  (init_reachable env_idle) eq_refl)).
Defined.

(** X12. When no callback adds, removes or updates systems or destroys the
    world, at every reachable state, [removeSystem(n)] removes the system
    named [n] and keeps the others in their order; [getSystem(n)] then
    returns nothing; the removed system's cleanup ran once (if it has
    one) and no other system's cleanup ran. *)
Theorem removeSystem_spec :
  forall env f w n w',
  env_quiet sys_quiet env -> reachable env w -> exec env f (OpRemoveSystem n) w = Some w' ->
  systems w' = filter (fun x => negb (name_is n x)) (systems w) /\
  getSystem w' n = None /\
  (forall x, In x (systems w) -> sys_name x = n ->
     count_cleanups x (new_events w w') =
     match env_cleanup env (sys_id x) with Some _ => 1 | None => 0 end) /\
  (forall x, sys_name x <> n -> count_cleanups x (new_events w w') = 0).
Proof.
  intros env f w n w' Henv Hr H.
  pose proof (names_reachable env Henv w Hr) as Hnd. exec_step H.
  destruct (find_index (name_is n) (systems w)) as [i|] eqn:Ef.
  - destruct (nth_error (systems w) i) as [ex|] eqn:Ex.
    2: { exfalso. destruct (find_index_some _ _ _ Ef) as [y Hy]. congruence. }
    destruct (call_cleanup env f ex w) as [w0|] eqn:Ec; [|discriminate]. injection H as <-.
    destruct (call_cleanup_quiet env Henv f ex w w0 Ec) as [Hs0 (l0 & E0 & _ & C0)].
    pose proof (find_index_nth _ _ _ _ Ef Ex) as Hexn. unfold name_is in Hexn.
    apply String.eqb_eq in Hexn.
    assert (Hsys : systems (set_systems (splice_out i (systems w0)) w0) =
                   filter (fun x => negb (name_is n x)) (systems w))
      by (simpl; rewrite Hs0; exact (splice_find_name _ _ _ Hnd Ef)).
    rewrite (new_events_app w (set_systems (splice_out i (systems w0)) w0) l0 E0).
    split; [exact Hsys|]. split; [unfold getSystem; rewrite Hsys; apply find_filter_neg|].
    split.
    + intros x Hx Hxn. rewrite C0.
      assert (x = ex) as ->.
      { apply (nodup_names_unique (systems w)); auto; [eapply nth_error_In; exact Ex | congruence]. }
      destruct (System_eq_dec ex ex); [reflexivity | contradiction].
    + intros x Hxn. rewrite C0. destruct (System_eq_dec x ex) as [->|]; [contradiction | reflexivity].
  - injection H as <-. rewrite new_events_refl.
    split; [symmetry; now apply filter_find_None|].
    split; [unfold getSystem; now apply find_index_find_None|].
    split; [|reflexivity].
    intros x Hx Hxn. exfalso. pose proof (find_index_None _ _ x Ef Hx) as Hf.
    unfold name_is in Hf. rewrite Hxn, String.eqb_refl in Hf. discriminate.
Qed.

Lemma removeSystem_spec_witness :
  env_quiet sys_quiet env_empty_cleanups /\
  reachable env_empty_cleanups (set_systems [systemA] init_world) /\
  count_cleanups systemA (new_events (set_systems [systemA] init_world)
    (set_systems [] (log (EvCleanup systemA) (set_systems [systemA] init_world)))) = 1.
Proof.
  assert (Hr : reachable env_empty_cleanups (set_systems [systemA] init_world))
    by (exists 3, [OpAddSystem systemA]; reflexivity).
  split; [apply env_empty_cleanups_quiet|]. split; [exact Hr|].
  exact (proj1 (proj2 (proj2 (removeSystem_spec env_empty_cleanups 3
    (set_systems [systemA] init_world) "a" _ (env_empty_cleanups_quiet sys_quiet) Hr eq_refl)))
    systemA (or_introl eq_refl) eq_refl).
Defined.

(** X13. [removeSystem(n)] when no system is named [n] changes nothing and
    runs no callback, whatever the callbacks do. *)
Theorem removeSystem_absent_noop :
  forall env f w n, getSystem w n = None -> exec env (S f) (OpRemoveSystem n) w = Some w.
Proof.
  intros env f w n H. unfold getSystem in H. simpl.
  now rewrite (find_find_index_None _ _ H).
Qed.

Lemma removeSystem_absent_noop_witness :
  getSystem (set_systems [systemA] init_world) "b" = None /\
  exec env_resubscribe 1 (OpRemoveSystem "b") (set_systems [systemA] init_world) =
  Some (set_systems [systemA] init_world).
Proof.
  split; [reflexivity|]. exact (removeSystem_absent_noop env_resubscribe 0 (set_systems [systemA] init_world) "b"
           eq_refl).
Defined.

Lemma cleanup_loop_counts env (Henv : env_quiet sys_quiet env) fuel :
  forall i w w', NoDup (skipn i (systems w)) -> cleanup_loop env fuel i w = Some w' ->
  exists l, trace w' = trace w ++ l /\ updates_of l = [] /\
    forall x, count_cleanups x l =
      if in_dec System_eq_dec x (skipn i (systems w))
      then match env_cleanup env (sys_id x) with Some _ => 1 | None => 0 end else 0.
Proof.
  induction fuel as [|f IH]; intros i w w' Hnd H; [discriminate|].
  simpl in H. destruct (nth_error (systems w) i) as [s|] eqn:Ei.
  - destruct (call_cleanup env f s w) as [w1|] eqn:Ec; [|discriminate].
    destruct (call_cleanup_quiet env Henv f s w w1 Ec) as [Hs0 (l0 & E0 & U0 & C0)].
    rewrite (skipn_nth_error _ _ _ Ei) in Hnd |- *. apply NoDup_cons_iff in Hnd as [Hs Hnd].
    destruct (IH (S i) w1 w' ltac:(rewrite Hs0; exact Hnd) H) as (l1 & E1 & U1 & C1).
    exists (l0 ++ l1). split; [rewrite E1, E0, app_assoc; reflexivity|].
    split; [rewrite updates_of_app, U0, U1; reflexivity|].
    intros x. rewrite count_cleanups_app, C0, C1, Hs0.
    destruct (System_eq_dec x s) as [->|Hne].
    + destruct (in_dec System_eq_dec s (skipn (S i) (systems w))); [contradiction|].
      destruct (in_dec System_eq_dec s (s :: skipn (S i) (systems w))) as [_|Hn];
        [lia | exfalso; apply Hn; now left].
    + destruct (in_dec System_eq_dec x (skipn (S i) (systems w))) as [Hin|Hin];
        destruct (in_dec System_eq_dec x (s :: skipn (S i) (systems w))) as [Hin'|Hin'];
        try reflexivity.
      * exfalso. apply Hin'. now right.
      * destruct Hin' as [->|Hin']; contradiction.
  - injection H as <-. exists []. rewrite app_nil_r. split; [reflexivity|].
    split; [reflexivity|]. intros x. rewrite (skipn_nth_error_None _ _ Ei). reflexivity.
Qed.

(** X14. When no callback adds, removes or updates systems or destroys the
    world, at every reachable state, [world.destroy()] runs the cleanup of
    each listed system exactly once (if it has one), of no other system,
    and no system's update. *)
Theorem destroy_runs_each_cleanup_once :
  forall env f w w',
  env_quiet sys_quiet env -> reachable env w -> exec env f OpDestroyWorld w = Some w' ->
  (forall x, In x (systems w) ->
     count_cleanups x (new_events w w') =
     match env_cleanup env (sys_id x) with Some _ => 1 | None => 0 end) /\
  (forall x, ~ In x (systems w) -> count_cleanups x (new_events w w') = 0) /\
  updates_of (new_events w w') = [].
Proof.
  intros env f w w' Henv Hr H.
  pose proof (NoDup_map_inv _ _ (names_reachable env Henv w Hr)) as Hnd. exec_step H.
  destruct (cleanup_loop env f 0 w) as [w1|] eqn:Ec; [|discriminate]. injection H as <-.
  destruct (cleanup_loop_counts env Henv f 0 w w1 Hnd Ec) as (l & E & U & C).
  rewrite (new_events_app w (reset_world w1) (l ++ [EvWorldDestroyed]))
    by (simpl; rewrite E, app_assoc; reflexivity).
  rewrite updates_of_app, U.
  split; [|split; [|reflexivity]]; intros x Hx; rewrite count_cleanups_app, C; simpl.
  - destruct (in_dec System_eq_dec x (systems w)); [|contradiction].
    unfold count_cleanups. simpl. lia.
  - destruct (in_dec System_eq_dec x (systems w)); [contradiction|]. reflexivity.
Qed.

Lemma destroy_runs_each_cleanup_once_witness :
  env_quiet sys_quiet env_empty_cleanups /\
  reachable env_empty_cleanups (set_systems [systemB; systemA] init_world) /\
  count_cleanups systemA (new_events (set_systems [systemB; systemA] init_world)
    (reset_world (log (EvCleanup systemA) (log (EvCleanup systemB)
       (set_systems [systemB; systemA] init_world))))) = 1.
Proof.
  assert (Hr : reachable env_empty_cleanups (set_systems [systemB; systemA] init_world))
    by (exists 3, [OpAddSystem systemB; OpAddSystem systemA]; vm_compute; reflexivity).
  split; [apply env_empty_cleanups_quiet|]. split; [exact Hr|].
  exact (proj1 (destroy_runs_each_cleanup_once env_empty_cleanups 5 _ _
    (env_empty_cleanups_quiet sys_quiet) Hr eq_refl) systemA (or_intror (or_introl eq_refl))).
Defined.

(** ** Event-bus extras *)

Lemma emit_loop_empty env fuel a d i w w' data :
  nth_error (handlerSets w) a = Some data -> somes (skipn i data) = [] ->
  emit_loop env fuel a d i w = Some w' -> w' = w.
Proof.
  revert i. induction fuel as [|f IH]; intros i Hd Hs H; [discriminate|].
  simpl in H. rewrite Hd in H.
  destruct (nth_error data i) as [[h|]|] eqn:Ei.
  - rewrite (skipn_nth_error _ _ _ Ei) in Hs. discriminate.
  - rewrite (skipn_nth_error _ _ _ Ei) in Hs. exact (IH (S i) Hd Hs H).
  - now injection H as <-.
Qed.

(** X15. [emit(ev, d)] for an event without a subscribed handler (never
    subscribed, every handler unsubscribed, or after [destroy()]) changes
    nothing and invokes nothing, whatever the callbacks do. *)
Theorem emit_without_handlers_noop :
  forall env f w ev d w', handlers_of w ev = [] ->
  exec env f (OpEmit ev d) w = Some w' -> w' = w.
Proof.
  intros env f w ev d w' Hh H. exec_step H. unfold handlers_of in Hh.
  destruct (smap_get ev (eventHandlers w)) as [a|]; [|now injection H as <-].
  destruct (nth_error (handlerSets w) a) as [data|] eqn:Ed.
  - exact (emit_loop_empty env f a d 0 w w' data Ed Hh H).
  - destruct f; simpl in H; [discriminate|]. rewrite Ed in H. now injection H as <-.
Qed.

Lemma emit_without_handlers_noop_witness :
  handlers_of (unsubscribe (fst (on init_world "e" 1)) 0 1) "e" = [] /\
  exec env_resubscribe 5 (OpEmit "e" None) (unsubscribe (fst (on init_world "e" 1)) 0 1) =
  Some (unsubscribe (fst (on init_world "e" 1)) 0 1).
Proof.
  split; [reflexivity|].
  destruct (exec env_resubscribe 5 (OpEmit "e" None) (unsubscribe (fst (on init_world "e" 1)) 0 1))
    as [w'|] eqn:E; [|discriminate E].
  f_equal. exact (emit_without_handlers_noop env_resubscribe 5
                    (unsubscribe (fst (on init_world "e" 1)) 0 1) "e" None w' eq_refl E).
Defined.

Lemma handler_log_app l1 l2 : handler_log (l1 ++ l2) = handler_log l1 ++ handler_log l2.
Proof. unfold handler_log. apply flat_map_app. Qed.

Lemma handler_log_free l : handler_free l -> handler_log l = [].
Proof.
  induction l as [|ev t IH]; intros Hf; [reflexivity|].
  destruct ev; simpl; try (apply IH; intros h' d' Hin; apply (Hf h' d'); now right).
  exfalso. apply (Hf handler data). now left.
Qed.

Lemma emit_loop_log env (Henv : env_quiet ev_quiet env) fuel :
  forall a d i w w' data,
  nth_error (handlerSets w) a = Some data ->
  emit_loop env fuel a d i w = Some w' ->
  exists l, trace w' = trace w ++ l /\
            handler_log l = map (fun h => (h, d)) (somes (skipn i data)).
Proof.
  induction fuel as [|f IH]; intros a d i w w' data Hd H; [discriminate|].
  simpl in H. rewrite Hd in H.
  destruct (nth_error data i) as [[h'|]|] eqn:Ei.
  - destruct (run env f (env_handler env h' d) (log (EvHandler h' d) w)) as [w1|] eqn:Er;
      [|discriminate].
    destruct (proj1 (proj2 (ev_quiet_ops env Henv f)) _ _ _
                (proj2 (proj2 (proj2 Henv)) h' d) Er) as [Hs1 (l1 & E1 & F1)].
    destruct (IH a d (S i) w1 w' data ltac:(rewrite Hs1; exact Hd) H) as (l2 & E2 & C2).
    exists ([EvHandler h' d] ++ l1 ++ l2). split.
    + rewrite E2, E1. simpl. now rewrite <- !app_assoc.
    + rewrite (skipn_nth_error _ _ _ Ei), !handler_log_app, (handler_log_free l1 F1), C2.
      reflexivity.
  - destruct (IH a d (S i) w w' data Hd H) as (l & E & C).
    exists l. split; [exact E|]. now rewrite (skipn_nth_error _ _ _ Ei), C.
  - injection H as <-. exists []. rewrite app_nil_r. split; [reflexivity|].
    now rewrite skipn_nth_error_None.
Qed.

(** X16. When no callback subscribes, unsubscribes or emits, [emit(ev, d)]
    invokes the handlers subscribed to [ev] once each, with [d], in the
    order they were subscribed, and nothing else. *)
Theorem emit_in_subscription_order :
  forall env f w ev d w',
  env_quiet ev_quiet env -> exec env f (OpEmit ev d) w = Some w' ->
  handler_log (new_events w w') = map (fun h => (h, d)) (handlers_of w ev).
Proof.
  intros env f w ev d w' Henv H. exec_step H. unfold handlers_of.
  destruct (smap_get ev (eventHandlers w)) as [a|];
    [|injection H as <-; now rewrite new_events_refl].
  destruct (nth_error (handlerSets w) a) as [data|] eqn:Ed.
  - destruct (emit_loop_log env Henv f a d 0 w w' data Ed H) as (l & E & C).
    now rewrite (new_events_app w w' l E), C.
  - destruct f; simpl in H; [discriminate|]. rewrite Ed in H. injection H as <-.
    now rewrite new_events_refl.
Qed.

Lemma emit_in_subscription_order_witness :
  env_quiet ev_quiet env_idle /\
  handler_log (new_events (fst (on (fst (on init_world "e" 1)) "e" 2))
    (log (EvHandler 2 (Some 7)) (log (EvHandler 1 (Some 7))
       (fst (on (fst (on init_world "e" 1)) "e" 2))))) = [(1, Some 7); (2, Some 7)].
Proof.
  split; [apply env_idle_quiet|].
  exact (emit_in_subscription_order env_idle 5 (fst (on (fst (on init_world "e" 1)) "e" 2))
           "e" (Some 7) _ (env_idle_quiet ev_quiet) eq_refl).
Defined.

Lemma existsb_opt_somes h d : existsb (opt_nat_eqb (Some h)) d = existsb (Nat.eqb h) (somes d).
Proof. induction d as [|[x|] t IH]; simpl; [reflexivity | now rewrite IH | exact IH]. Qed.

(** X17. At every reachable state, [on(ev, h)] appends [h] at the end of
    [ev]'s handlers (the order [emit] follows), or changes nothing if [h]
    is already subscribed to [ev]. *)
Theorem on_appends_handler :
  forall env w ev h, reachable env w ->
  handlers_of (fst (on w ev h)) ev =
  if existsb (Nat.eqb h) (handlers_of w ev) then handlers_of w ev else handlers_of w ev ++ [h].
Proof.
  intros env w ev h Hr. destruct (wf_reachable env w Hr) as [H1 _].
  unfold on, handlers_of. destruct (smap_get ev (eventHandlers w)) as [a|] eqn:E; simpl.
  - rewrite E, nth_error_update_nth_eq.
    destruct (nth_error (handlerSets w) a) as [data|] eqn:Ed; simpl.
    + now rewrite somes_hset_add, existsb_opt_somes.
    + apply nth_error_None in Ed. specialize (H1 _ _ E). lia.
  - rewrite smap_get_set_eq, nth_error_app2, Nat.sub_diag by lia. reflexivity.
Qed.

Lemma on_appends_handler_witness :
  reachable env_idle (fst (on init_world "e" 1)) /\
  handlers_of (fst (on (fst (on init_world "e" 1)) "e" 2)) "e" = [1; 2].
Proof.
  assert (Hr : reachable env_idle (fst (on init_world "e" 1))) by (exists 3, [OpOn "e" 1]; reflexivity).
  split; [exact Hr|].
  exact (on_appends_handler env_idle (fst (on init_world "e" 1)) "e" 2 Hr).
Defined.

Lemma update_nth_compose {A} i (f g : A -> A) l :
  update_nth i f (update_nth i g l) = update_nth i (fun x => f (g x)) l.
Proof. revert i; induction l as [|x t IH]; intros [|i]; simpl; auto. now rewrite IH. Qed.

Lemma update_nth_ext {A} i (f g : A -> A) l :
  (forall x, f x = g x) -> update_nth i f l = update_nth i g l.
Proof. intros H. revert i; induction l as [|x t IH]; intros [|i]; simpl; auto; now rewrite ?H, ?IH. Qed.

Lemma hset_delete_idem h d : hset_delete h (hset_delete h d) = hset_delete h d.
Proof.
  unfold hset_delete. rewrite map_map. apply map_ext. intros [x|]; simpl; [|reflexivity].
  destruct (Nat.eqb h x) eqn:E; simpl; [reflexivity|]. now rewrite E.
Qed.

(** X18. While [ev] is still mapped to the handler set [a] that the
    closure of [on(ev, h)] captured (that is, until [destroy()] clears the
    event map), calling the closure removes [h] from [ev]'s handlers and
    keeps the others in their order.  In every state, calling the closure
    twice is calling it once. *)
Theorem unsubscribe_spec :
  (forall w ev a h, smap_get ev (eventHandlers w) = Some a ->
     handlers_of (unsubscribe w a h) ev = eset_delete h (handlers_of w ev)) /\
  (forall w a h, unsubscribe (unsubscribe w a h) a h = unsubscribe w a h).
Proof.
  split.
  - intros w ev a h E.
    unfold handlers_of, unsubscribe; simpl. rewrite E, nth_error_update_nth_eq.
    destruct (nth_error (handlerSets w) a); simpl; [apply somes_hset_delete | reflexivity].
  - intros w a h.
    unfold unsubscribe at 1 3. unfold set_handlerSets at 1. simpl.
    rewrite update_nth_compose, (update_nth_ext a _ (hset_delete h)) by apply hset_delete_idem.
    reflexivity.
Qed.

Lemma unsubscribe_spec_witness :
  smap_get "e" (eventHandlers (fst (on (fst (on init_world "e" 1)) "e" 2))) = Some 0 /\
  handlers_of (unsubscribe (fst (on (fst (on init_world "e" 1)) "e" 2)) 0 1) "e" = [2].
Proof.
  split; [reflexivity|].
  exact (proj1 unsubscribe_spec (fst (on (fst (on init_world "e" 1)) "e" 2)) "e"%string 0 1 eq_refl).
Defined.

(** Distinct events have distinct handler sets at every reachable state. *)
Definition ei_kept (w w' : World) : Prop :=
  wf_events w /\ events_inj w -> wf_events w' /\ events_inj w'.

Lemma ei_same w w' : eventHandlers w' = eventHandlers w -> wf_kept w w' -> ei_kept w w'.
Proof.
  intros He Hwf [Hw Hi]. split; [exact (Hwf Hw)|]. intros e1 e2 a. rewrite He. apply Hi.
Qed.

Lemma ei_on w ev h : ei_kept w (fst (on w ev h)).
Proof.
  intros [Hw Hi]. split; [exact (wf_on w ev h Hw)|]. destruct Hw as [H1 _].
  unfold on. destruct (smap_get ev (eventHandlers w)) as [a|] eqn:E; simpl; [exact Hi|].
  intros e1 e2 a'. simpl.
  destruct (string_dec e1 ev) as [->|N1], (string_dec e2 ev) as [->|N2];
    rewrite ?smap_get_set_eq, ?smap_get_set_neq by assumption; intros G1 G2.
  - reflexivity.
  - injection G1 as <-. specialize (H1 _ _ G2). lia.
  - injection G2 as <-. specialize (H1 _ _ G1). lia.
  - exact (Hi _ _ _ G1 G2).
Qed.

Lemma eh_component_ops :
  (forall w T, eventHandlers (registerComponent w T) = eventHandlers w) /\
  (forall w e T v, eventHandlers (addComponent w e T v) = eventHandlers w) /\
  (forall w e T, eventHandlers (snd (getComponent w e T)) = eventHandlers w) /\
  (forall w e T, eventHandlers (removeComponent w e T) = eventHandlers w).
Proof.
  repeat match goal with |- _ /\ _ => split end; intros.
  - unfold registerComponent. now destruct (smap_has _ _).
  - unfold addComponent, getStorage. destruct (negb _); [reflexivity|].
    now destruct (smap_get _ _).
  - unfold getComponent, getStorage. now destruct (smap_get _ _).
  - unfold removeComponent. now destruct (smap_get _ _).
Qed.

Lemma ei_reachable env w : reachable env w -> wf_events w /\ events_inj w.
Proof.
  intros (fuel & ops & H).
  destruct wf_primitives as (W1 & W2 & W3 & W4 & W5 & W6 & W7 & W8 & W9 & W10 & W11 & W12).
  destruct eh_component_ops as (Q5 & Q6 & Q7 & Q8).
  refine (proj1 (proj2 (preserved_by_all_ops ei_kept _ _ _ _ _ _ _ _ _ _ _ _ _ _ env fuel))
            ops init_world w H _).
  - intros w0 H0. exact H0.
  - intros w1 w2 w3 H12 H23 H1. auto.
  - intros m w0. apply ei_same; [reflexivity | apply W1].
  - intros l w0. apply ei_same; [reflexivity | apply W2].
  - intros ev w0. apply ei_same; [reflexivity | apply W3].
  - intros w0 [Hw _]. split; [exact (W4 w0 Hw)|]. intros e1 e2 a G1. discriminate.
  - intros w0 T. apply ei_same; [apply Q5 | apply W5].
  - intros w0 e T v. apply ei_same; [apply Q6 | apply W6].
  - intros w0 e T. apply ei_same; [apply Q7 | apply W7].
  - intros w0 e T. apply ei_same; [apply Q8 | apply W8].
  - intros w0 e. apply ei_same; [reflexivity | apply W9].
  - apply ei_on.
  - intros w0 a h. apply ei_same; [reflexivity | apply W11].
  - intros w0 k v. apply ei_same; [reflexivity | apply W12].
  - split; [split; [simpl; discriminate | constructor]|]. intros e1 e2 a G1. discriminate.
Qed.

Lemma nth_error_update_nth_neq {A} i j (f : A -> A) l :
  j <> i -> nth_error (update_nth i f l) j = nth_error l j.
Proof.
  revert i j. induction l as [|x t IH]; intros [|i] [|j] Hne; simpl; try reflexivity.
  - contradiction.
  - apply IH. intros ->. now apply Hne.
Qed.

(** X19. At every reachable state, subscribing to an event, or calling the
    unsubscribe closure of one of its handlers, never changes the handlers
    of another event. *)
Theorem events_independent :
  forall env w ev ev' h, reachable env w -> ev' <> ev ->
  handlers_of (fst (on w ev h)) ev' = handlers_of w ev' /\
  (forall a h', smap_get ev (eventHandlers w) = Some a ->
     handlers_of (unsubscribe w a h') ev' = handlers_of w ev').
Proof.
  intros env w ev ev' h Hr Hne. destruct (ei_reachable env w Hr) as [[H1 _] Hi].
  assert (Hupd : forall a f, smap_get ev (eventHandlers w) = Some a ->
    handlers_of (set_handlerSets (update_nth a f (handlerSets w)) w) ev' = handlers_of w ev').
  { intros a f E. unfold handlers_of; simpl.
    destruct (smap_get ev' (eventHandlers w)) as [a'|] eqn:E'; [|reflexivity].
    rewrite nth_error_update_nth_neq; [reflexivity|]. intros ->. exact (Hne (Hi _ _ _ E' E)). }
  split.
  - unfold on. destruct (smap_get ev (eventHandlers w)) as [a|] eqn:E; [exact (Hupd a _ eq_refl)|].
    unfold handlers_of; simpl. rewrite smap_get_set_neq by exact Hne.
    destruct (smap_get ev' (eventHandlers w)) as [a'|] eqn:E'; [|reflexivity].
    rewrite nth_error_app1; [reflexivity|]. exact (H1 _ _ E').
  - intros a h' E. exact (Hupd a _ E).
Qed.

Lemma events_independent_witness :
  reachable env_idle (fst (on init_world "a" 1)) /\
  handlers_of (fst (on (fst (on init_world "a" 1)) "b" 2)) "a" = [1].
Proof.
  assert (Hr : reachable env_idle (fst (on init_world "a" 1))) by (exists 3, [OpOn "a" 1]; reflexivity).
  split; [exact Hr|].
  exact (proj1 (events_independent env_idle (fst (on init_world "a" 1)) "b" "a" 2 Hr
                  ltac:(discriminate))).
Defined.
